(** * The event loop of the DAG store (dagstore_control.go)

    A shallow embedding of [control] and [consumeNext].  The loop is the
    single writer of the shard records; everything else it touches (the
    dispatcher, the task queues, the workers, the index repository, the
    metadata store) is reached through calls, and the embedding records
    each such call, in program order, in an effect log. *)

From Stdlib Require Import ZArith.
From stdpp Require Import base option list strings gmap.

Local Open Scope Z_scope.
Local Open Scope string_scope.
Local Open Scope list_scope.

(** ** Values *)

(** shard.Key: an opaque string. *)
Definition shard_Key := string.

(** Identity of a Go channel value; a nil channel is [None] where the
    source lets it be nil. *)
Definition chan := nat.

(** The mount of a shard: an opaque handle, only passed along. *)
Definition Mount := nat.

(** A *Shard: the address of a shard record in the heap of the store. *)
Definition loc := nat.

(** context.Context values, by identity. *)
Inductive Ctx : Type :=
| context_Background
| ctx_of (id : nat).

Global Instance Ctx_eq_dec : EqDecision Ctx.
Proof. solve_decision. Defined.

(** type OpType int, with the seven constants of the iota block. *)
Definition OpType := Z.

Definition OpShardRegister : OpType := 0.
Definition OpShardInitialize : OpType := 1.
Definition OpShardMakeAvailable : OpType := 2.
Definition OpShardDestroy : OpType := 3.
Definition OpShardAcquire : OpType := 4.
Definition OpShardFail : OpType := 5.
Definition OpShardRecover : OpType := 6.

Definition defined_ops : list OpType :=
  [OpShardRegister; OpShardInitialize; OpShardMakeAvailable; OpShardDestroy;
   OpShardAcquire; OpShardFail; OpShardRecover].

(** func (o OpType) String(): indexing the array of names; out of range
    the index expression panics, which is [None] here. *)
Definition OpType_String (o : OpType) : option string :=
  if (o <? 0)%Z then None
  else ["OpShardRegister"; "OpShardInitialize"; "OpShardMakeAvailable";
        "OpShardDestroy"; "OpShardAcquire"; "OpShardFail";
        "OpShardRecover"] !! Z.to_nat o.

(** Modelled from the spec: the ShardState enumeration, whose declaration
    is not part of dagstore_control.go.  The loop names three of its
    values (ShardStateNew, ShardStateAvailable, ShardStateErrored); the
    others are those the data model lists. *)
Inductive ShardState : Type :=
| ShardStateNew
| ShardStateInitializing
| ShardStateAvailable
| ShardStateErrored
| ShardStateServingNew
| ShardStateDestroyed.

Global Instance ShardState_eq_dec : EqDecision ShardState.
Proof. solve_decision. Defined.

(** Operands of a format string other than the one behind %w. *)
Inductive fmtarg : Type :=
| ArgState (st : ShardState)
| ArgKey (k : shard_Key).

(** Go error values.  The sentinels are compared by identity in the
    source.  A call fmt.Errorf(format, ...) yields a [fmt_wrapError]
    around its %w operand, or a plain [fmt_errorString] when that operand
    is a nil error or the format has no %w; [args] are the other
    operands. *)
Inductive error : Type :=
| ErrShardInitializationFailed
| context_Canceled
| context_DeadlineExceeded
| ds_ErrNotFound
| errors_New (msg : string)
| fmt_errorString (format : string) (args : list fmtarg)
| fmt_wrapError (format : string) (args : list fmtarg) (wrapped : error).

Definition fmt_Errorf (format : string) (args : list fmtarg)
    (operand : option error) : error :=
  match operand with
  | Some e => fmt_wrapError format args e
  | None => fmt_errorString format args
  end.

(** errors.Unwrap. *)
Definition errors_Unwrap (e : error) : option error :=
  match e with
  | fmt_wrapError _ _ w => Some w
  | _ => None
  end.

(** errors.Is(err, ds.ErrNotFound): follows the chain of wrapped errors. *)
Fixpoint errors_Is_ErrNotFound (e : error) : bool :=
  match e with
  | ds_ErrNotFound => true
  | fmt_wrapError _ _ w => errors_Is_ErrNotFound w
  | _ => false
  end.

(** The waiter struct: a context and the channel the result goes to. *)
Record waiter : Type := mk_waiter {
  w_ctx : Ctx;
  w_outCh : option chan;
}.

Global Instance waiter_eq_dec : EqDecision waiter.
Proof. solve_decision. Defined.

(** ShardResult{Key, Error}. *)
Record ShardResult : Type := mk_ShardResult {
  r_Key : shard_Key;
  r_Error : option error;
}.

(** The fields of a Shard the loop reads or writes (the mutex lk is the
    Lock and Unlock effects below). *)
Record Shard : Type := mk_Shard {
  s_key : shard_Key;
  s_state : ShardState;
  s_err : option error;
  s_lazy : bool;
  s_mount : Mount;
  s_wRegister : option waiter;
  s_wRecover : option waiter;
  s_wAcquire : list waiter;
  s_recoverOnNextAcquire : bool;
}.

Definition set_state (v : ShardState) (s : Shard) : Shard :=
  mk_Shard (s_key s) v (s_err s) (s_lazy s) (s_mount s) (s_wRegister s)
           (s_wRecover s) (s_wAcquire s) (s_recoverOnNextAcquire s).
Definition set_err (v : option error) (s : Shard) : Shard :=
  mk_Shard (s_key s) (s_state s) v (s_lazy s) (s_mount s) (s_wRegister s)
           (s_wRecover s) (s_wAcquire s) (s_recoverOnNextAcquire s).
Definition set_wRegister (v : option waiter) (s : Shard) : Shard :=
  mk_Shard (s_key s) (s_state s) (s_err s) (s_lazy s) (s_mount s) v
           (s_wRecover s) (s_wAcquire s) (s_recoverOnNextAcquire s).
Definition set_wRecover (v : option waiter) (s : Shard) : Shard :=
  mk_Shard (s_key s) (s_state s) (s_err s) (s_lazy s) (s_mount s)
           (s_wRegister s) v (s_wAcquire s) (s_recoverOnNextAcquire s).
Definition set_wAcquire (v : list waiter) (s : Shard) : Shard :=
  mk_Shard (s_key s) (s_state s) (s_err s) (s_lazy s) (s_mount s)
           (s_wRegister s) (s_wRecover s) v (s_recoverOnNextAcquire s).
Definition set_recoverOnNextAcquire (v : bool) (s : Shard) : Shard :=
  mk_Shard (s_key s) (s_state s) (s_err s) (s_lazy s) (s_mount s)
           (s_wRegister s) (s_wRecover s) (s_wAcquire s) v.

(** The task struct.  Its declaration is not part of dagstore_control.go.
    Every task the loop builds is a literal over op, shard, waiter and
    err, and the loop reads tsk.ctx and tsk.outCh without any literal
    setting them: they are the fields of the *waiter the task embeds,
    promoted to the task.  That is why the loop puts the context a worker
    is to run under into the waiter of the task it queues (lines 144-148
    and 166-172) and the cases OpShardInitialize and OpShardRecover then
    hand tsk.ctx to the worker.  Reading a promoted field through a nil
    waiter is a nil pointer dereference. *)
Record task : Type := mk_task {
  t_op : OpType;
  t_shard : loc;
  t_waiter : option waiter;
  t_err : option error;
}.

Definition t_ctx (tsk : task) : option Ctx := w_ctx <$> t_waiter tsk.
Definition t_outCh (tsk : task) : option (option chan) := w_outCh <$> t_waiter tsk.

(** ShardInfo and Trace, as the loop fills them. *)
Record ShardInfo : Type := mk_ShardInfo {
  i_ShardState : ShardState;
  i_Error : option error;
}.

Record Trace : Type := mk_Trace {
  tr_Key : shard_Key;
  tr_Op : OpType;
  tr_After : ShardInfo;
}.

(** index.Stat, of which the loop reads Exists. *)
Record Stat : Type := mk_Stat {
  st_Exists : bool;
}.

(** ** What the loop reaches through calls *)

(** The collaborators of the loop whose code is not in
    dagstore_control.go, as operations over the state they own: the
    metadata store d.store ([Store]) and the index repository d.indices
    ([Indices]).  A Go method that returns an error returns [option error]
    here, next to what it leaves behind. *)
Class Externals (Store Indices : Type) : Type := {
  (** d.shardFromPersistentState(s): reloads s from the store, in place. *)
  shardFromPersistentState : Store → Shard → option error * Shard;
  (** s.persist(d.ctx, d.store). *)
  persist : Shard → Store → option error * Store;
  (** d.store.Delete(d.ctx, ds.NewKey(s.key.String())). *)
  store_Delete : Store → shard_Key → option error * Store;
  (** d.indices.StatFullIndex(s.key). *)
  StatFullIndex : Indices → shard_Key → Stat * option error;
}.

(** One entry of the effect log: a call whose callee is outside the loop,
    a goroutine the loop starts, a channel send, or an operation on the
    mutex of the shard. *)
Inductive Effect : Type :=
| Lock (s : loc)
| Unlock (s : loc)
| Call_failShard (s : loc) (format : string) (args : list fmtarg) (wrapped : error)
| Call_queueTask (tsk : task)
| Call_dispatchResult (res : ShardResult) (waiters : list (option waiter))
| Go_initializeShard (ctx : Ctx) (s : loc) (m : Mount)
| Go_acquireAsync (ctx : Ctx) (w : waiter) (s : loc) (m : Mount)
| Send_dispatchFailuresCh (res : ShardResult) (w : waiter)
| Call_Delete (k : shard_Key)
| Call_persist (snapshot : Shard)
| Log_failed_to_persist (e : error)
| Send_traceCh (n : Trace).

(** The two ways an iteration can panic. *)
Inductive Panic : Type :=
| nil_pointer_dereference
| unrecognized_shard_operation (o : OpType).

(** ** The monad of one iteration *)

Section Loop.

Context {Store Indices : Type} `{!Externals Store Indices}.

(** What the body of the loop mutates between Lock and Unlock: the record
    tsk.shard points to, the local variable persist, the metadata store,
    and the log. *)
Record Frame : Type := mk_Frame {
  f_s : Shard;
  f_persist : bool;
  f_store : Store;
  f_log : list Effect;
}.

Inductive Result (A : Type) : Type :=
| Ok (a : A) (f : Frame)
| Panicked (p : Panic).
Global Arguments Ok {A} a f.
Global Arguments Panicked {A} p.

Definition M (A : Type) : Type := Frame → Result A.

Global Instance M_ret : MRet M := λ A a f, Ok a f.
Global Instance M_bind : MBind M := λ A B k m f,
  match m f with
  | Ok a f' => k a f'
  | Panicked p => Panicked p
  end.

Definition panic {A} (p : Panic) : M A := λ _, Panicked p.

(** Reads of s and d.store. *)
Definition get_s : M Shard := λ f, Ok (f_s f) f.
Definition get_store : M Store := λ f, Ok (f_store f) f.

(** An assignment to a field of s. *)
Definition update_s (g : Shard → Shard) : M unit := λ f,
  Ok () (mk_Frame (g (f_s f)) (f_persist f) (f_store f) (f_log f)).

Definition put_store (st : Store) : M unit := λ f,
  Ok () (mk_Frame (f_s f) (f_persist f) st (f_log f)).

(** persist = b *)
Definition set_persist (b : bool) : M unit := λ f,
  Ok () (mk_Frame (f_s f) b (f_store f) (f_log f)).

Definition get_persist : M bool := λ f, Ok (f_persist f) f.

Definition emit (e : Effect) : M unit := λ f,
  Ok () (mk_Frame (f_s f) (f_persist f) (f_store f) (f_log f ++ [e])).

(** Dereferencing a pointer that may be nil. *)
Definition deref {A} (p : option A) : M A :=
  match p with
  | Some a => mret a
  | None => panic nil_pointer_dereference
  end.

(** for _, x := range xs { body } *)
Fixpoint for_range {A} (xs : list A) (body : A → M unit) : M unit :=
  match xs with
  | [] => mret ()
  | x :: xs' => body x ;; for_range xs' body
  end.

(** ** The store *)

(** The fields of the DAGStore the loop uses.  [d_ctx_Err] is
    d.ctx.Err(): nil until the context is done, and d.ctx.Done() is ready
    exactly when it is not nil.  Each channel the loop receives from is
    the queue of the tasks waiting in it, oldest first.  [d_shards] is the
    heap the *Shard of a task points into. *)
Record DAGStore : Type := mk_DAGStore {
  d_ctx : Ctx;
  d_ctx_Err : option error;
  d_store : Store;
  d_indices : Indices;
  d_failureCh : option chan;
  d_traceCh : option chan;
  d_internalCh : list task;
  d_externalCh : list task;
  d_completionCh : list task;
  d_shards : gmap loc Shard;
}.

Definition is_nil {A} (p : option A) : bool :=
  match p with
  | None => true
  | Some _ => false
  end.

(** ** The cases of the switch (control, lines 63-266) *)

(** case OpShardRegister *)
Definition case_OpShardRegister (tsk : task) : M unit :=
  s ← get_s;
  if decide (s_state s ≠ ShardStateNew) then
    (* sanity check failed *)
    emit (Call_failShard (t_shard tsk)
            "%w: expected shard to be in 'new' state; was: %s"
            [ArgState (s_state s)] ErrShardInitializationFailed)
  else if s_lazy s then
    match t_waiter tsk with
    | Some w => emit (Call_dispatchResult (mk_ShardResult (s_key s) None) [Some w])
    | None => mret ()
    end
  else
    update_s (set_wRegister (t_waiter tsk));;
    emit (Call_queueTask (mk_task OpShardInitialize (t_shard tsk) (t_waiter tsk) None)).

(** case OpShardInitialize *)
Definition case_OpShardInitialize (d : DAGStore) (tsk : task) : M unit :=
  s ← get_s;
  let '(istat, err) := StatFullIndex (d_indices d) (s_key s) in
  if is_nil err && st_Exists istat then
    emit (Call_queueTask (mk_task OpShardMakeAvailable (t_shard tsk) None None))
  else
    ctx ← deref (t_ctx tsk);
    emit (Go_initializeShard ctx (t_shard tsk) (s_mount s)).

(** case OpShardMakeAvailable *)
Definition case_OpShardMakeAvailable (tsk : task) : M unit :=
  update_s (set_state ShardStateAvailable);;
  update_s (set_err None);;
  s ← get_s;
  match s_wRegister s with
  | Some w =>
      emit (Call_dispatchResult (mk_ShardResult (s_key s) None) [Some w]);;
      update_s (set_wRegister None)
  | None => mret ()
  end;;
  match s_wRecover s with
  | Some w =>
      emit (Call_dispatchResult (mk_ShardResult (s_key s) None) [Some w]);;
      update_s (set_wRecover None)
  | None => mret ()
  end;;
  for_range (s_wAcquire s) (λ w,
    emit (Go_acquireAsync (w_ctx w) w (t_shard tsk) (s_mount s)));;
  update_s (set_wAcquire []).

(** case OpShardAcquire *)
Definition case_OpShardAcquire (d : DAGStore) (tsk : task) : M unit :=
  s0 ← get_s;
  st ← get_store;
  let '(err, s) := shardFromPersistentState st s0 in
  update_s (λ _, s);;
  match err with
  | Some e =>
      emit (Call_dispatchResult
              (mk_ShardResult (s_key s)
                 (Some (fmt_Errorf "could not acquire shard: %w" [] (Some e))))
              [t_waiter tsk]);;
      set_persist false
  | None =>
      ctx ← deref (t_ctx tsk);
      outCh ← deref (t_outCh tsk);
      let w := mk_waiter ctx outCh in
      if decide (s_state s = ShardStateErrored) then
        if s_recoverOnNextAcquire s then
          update_s (set_wAcquire (s_wAcquire s ++ [w]));;
          update_s (set_recoverOnNextAcquire false);;
          emit (Call_queueTask
                  (mk_task OpShardRecover (t_shard tsk)
                     (Some (mk_waiter (d_ctx d) None)) None))
        else
          emit (Call_dispatchResult
                  (mk_ShardResult (s_key s)
                     (Some (fmt_Errorf "shard is in errored state; err: %w" []
                              (s_err s))))
                  [Some w])
      else if decide (s_state s ≠ ShardStateAvailable) then
        update_s (set_wAcquire (s_wAcquire s ++ [w]));;
        if decide (s_state s = ShardStateNew) then
          w' ← deref (t_waiter tsk);
          let w' := mk_waiter context_Background (w_outCh w') in
          emit (Call_queueTask
                  (mk_task OpShardInitialize (t_shard tsk) (Some w') None))
        else mret ()
      else
        emit (Go_acquireAsync ctx w (t_shard tsk) (s_mount s))
  end.

(** case OpShardFail *)
Definition case_OpShardFail (d : DAGStore) (tsk : task) : M unit :=
  update_s (set_state ShardStateErrored);;
  update_s (set_err (t_err tsk));;
  s ← get_s;
  match s_wRegister s with
  | Some w =>
      emit (Call_dispatchResult
              (mk_ShardResult (s_key s)
                 (Some (fmt_Errorf "failed to register shard: %w" [] (t_err tsk))))
              [Some w]);;
      update_s (set_wRegister None)
  | None => mret ()
  end;;
  match s_wRecover s with
  | Some w =>
      emit (Call_dispatchResult
              (mk_ShardResult (s_key s)
                 (Some (fmt_Errorf "failed to recover shard: %w" [] (t_err tsk))))
              [Some w]);;
      update_s (set_wRecover None)
  | None => mret ()
  end;;
  (if (0 <? length (s_wAcquire s))%nat then
     emit (Call_dispatchResult
             (mk_ShardResult (s_key s)
                (Some (fmt_Errorf "failed to acquire shard: %w" [] (t_err tsk))))
             (Some <$> s_wAcquire s));;
     update_s (set_wAcquire [])
   else mret ());;
  match d_failureCh d with
  | Some _ =>
      emit (Send_dispatchFailuresCh (mk_ShardResult (s_key s) (s_err s))
              (mk_waiter (d_ctx d) (d_failureCh d)))
  | None => mret ()
  end.

(** case OpShardRecover *)
Definition case_OpShardRecover (tsk : task) : M unit :=
  s0 ← get_s;
  st ← get_store;
  let '(err, s) := shardFromPersistentState st s0 in
  update_s (λ _, s);;
  match err with
  | Some e =>
      emit (Call_dispatchResult
              (mk_ShardResult (s_key s)
                 (Some (fmt_Errorf "could not recover shard: %w" [] (Some e))))
              [t_waiter tsk]);;
      set_persist false
  | None =>
      if decide (s_state s ≠ ShardStateErrored) then
        emit (Call_dispatchResult
                (mk_ShardResult (s_key s)
                   (Some (fmt_Errorf
                            "refused to recover shard in state other than errored; current state: %d"
                            [ArgState (s_state s)] None)))
                [t_waiter tsk])
      else
        (* park the waiter *)
        update_s (set_wRecover (t_waiter tsk));;
        ctx ← deref (t_ctx tsk);
        emit (Go_initializeShard ctx (t_shard tsk) (s_mount s))
  end.

(** case OpShardDestroy *)
Definition case_OpShardDestroy (tsk : task) : M unit :=
  set_persist false;;
  s ← get_s;
  st ← get_store;
  let '(err, st') := store_Delete st (s_key s) in
  emit (Call_Delete (s_key s));;
  put_store st';;
  match err with
  | Some e =>
      if negb (errors_Is_ErrNotFound e) then
        emit (Call_dispatchResult
                (mk_ShardResult (s_key s)
                   (Some (fmt_Errorf "failed to delete shard %s: %w"
                            [ArgKey (s_key s)] (Some e))))
                [t_waiter tsk])
      else mret ()
  | None => mret ()
  end.

(** switch tsk.op, the cases in the order of the source. *)
Definition switch_op (d : DAGStore) (tsk : task) : M unit :=
  if decide (t_op tsk = OpShardRegister) then case_OpShardRegister tsk
  else if decide (t_op tsk = OpShardInitialize) then case_OpShardInitialize d tsk
  else if decide (t_op tsk = OpShardMakeAvailable) then case_OpShardMakeAvailable tsk
  else if decide (t_op tsk = OpShardAcquire) then case_OpShardAcquire d tsk
  else if decide (t_op tsk = OpShardFail) then case_OpShardFail d tsk
  else if decide (t_op tsk = OpShardRecover) then case_OpShardRecover tsk
  else if decide (t_op tsk = OpShardDestroy) then case_OpShardDestroy tsk
  else panic (unrecognized_shard_operation (t_op tsk)).

(** ** One iteration of the loop (control, lines 56-292) *)

(** if persist { ... }: the error of the write is logged and dropped. *)
Definition persist_step : M unit :=
  p ← get_persist;
  if (p : bool) then
    s ← get_s;
    st ← get_store;
    let '(err, st') := persist s st in
    emit (Call_persist s);;
    put_store st';;
    match err with
    | Some e => emit (Log_failed_to_persist e)
    | None => mret ()
    end
  else mret ().

(** if d.traceCh != nil { d.traceCh <- n }: the send is recorded in the
    log as an effect; that it blocks until the trace is received (like
    the send of line 229) is not part of the model. *)
Definition trace_step (d : DAGStore) (tsk : task) : M unit :=
  match d_traceCh d with
  | Some _ =>
      s ← get_s;
      emit (Send_traceCh
              (mk_Trace (s_key s) (t_op tsk) (mk_ShardInfo (s_state s) (s_err s))))
  | None => mret ()
  end.

(** From s.lk.Lock() to s.lk.Unlock(). *)
Definition locked_section (d : DAGStore) (tsk : task) : M unit :=
  emit (Lock (t_shard tsk));;
  switch_op d tsk;;
  persist_step;;
  trace_step d tsk;;
  emit (Unlock (t_shard tsk)).

(** Modelled from the spec: queueTask and failShard, which are not part
    of dagstore_control.go.  The loop enqueues its follow-up work on the
    internal channel; failShard synthesizes an OpShardFail carrying the
    formatted error. *)
Definition queued_internal (e : Effect) : list task :=
  match e with
  | Call_queueTask tsk => [tsk]
  | Call_failShard s format args wrapped =>
      [mk_task OpShardFail s None (Some (fmt_Errorf format args (Some wrapped)))]
  | _ => []
  end.

Inductive Step : Type :=
| Continue (d' : DAGStore) (log : list Effect)
| Panics (p : Panic).

(** The body of the for loop for the task consumeNext returned, with
    persist := true on entry; the log is that of this iteration. *)
Definition process (d : DAGStore) (tsk : task) : Step :=
  match d_shards d !! t_shard tsk with
  | None => Panics nil_pointer_dereference
  | Some s =>
      match locked_section d tsk (mk_Frame s true (d_store d) []) with
      | Ok _ f =>
          Continue
            (mk_DAGStore (d_ctx d) (d_ctx_Err d) (f_store f) (d_indices d)
               (d_failureCh d) (d_traceCh d)
               (d_internalCh d ++ concat (queued_internal <$> f_log f))
               (d_externalCh d) (d_completionCh d)
               (<[t_shard tsk := f_s f]> (d_shards d)))
            (f_log f)
      | Panicked p => Panics p
      end
  end.

(** ** consumeNext *)

(** The communications of the two select statements. *)
Inductive Case : Type :=
| recv_internalCh
| recv_externalCh
| recv_completionCh
| ctx_Done.

(** What consumeNext comes to: a task (with the store after the
    receive), the error of the context, or a select in which nothing can
    proceed yet. *)
Inductive Consumed : Type :=
| Got (tsk : task) (d' : DAGStore)
| Failed (e : error)
| Blocks (d' : DAGStore).

(** A receive takes the oldest task out of the channel. *)
Definition with_internalCh (q : list task) (d : DAGStore) : DAGStore :=
  mk_DAGStore (d_ctx d) (d_ctx_Err d) (d_store d) (d_indices d)
    (d_failureCh d) (d_traceCh d) q (d_externalCh d) (d_completionCh d)
    (d_shards d).

Definition with_externalCh (q : list task) (d : DAGStore) : DAGStore :=
  mk_DAGStore (d_ctx d) (d_ctx_Err d) (d_store d) (d_indices d)
    (d_failureCh d) (d_traceCh d) (d_internalCh d) q (d_completionCh d)
    (d_shards d).

Definition with_completionCh (q : list task) (d : DAGStore) : DAGStore :=
  mk_DAGStore (d_ctx d) (d_ctx_Err d) (d_store d) (d_indices d)
    (d_failureCh d) (d_traceCh d) (d_internalCh d) (d_externalCh d) q
    (d_shards d).

(** The result of a case when it can proceed, [None] when it cannot. *)
Definition attempt (d : DAGStore) (c : Case) : option Consumed :=
  match c with
  | recv_internalCh =>
      match d_internalCh d with
      | tsk :: q => Some (Got tsk (with_internalCh q d))
      | [] => None
      end
  | recv_externalCh =>
      match d_externalCh d with
      | tsk :: q => Some (Got tsk (with_externalCh q d))
      | [] => None
      end
  | recv_completionCh =>
      match d_completionCh d with
      | tsk :: q => Some (Got tsk (with_completionCh q d))
      | [] => None
      end
  | ctx_Done => Failed <$> d_ctx_Err d
  end.

(** A select statement: of the cases that can proceed one is chosen (Go
    chooses pseudo-randomly, [pick] stands for that choice); [None] when
    no case can proceed. *)
Definition select_ (pick : nat) (d : DAGStore) (cases : list Case) : option Consumed :=
  let ready := omap (attempt d) cases in
  ready !! (pick mod length ready)%nat.

(** What the other goroutines do while the loop waits in the second
    select: callers send on the external channel, workers on the
    completion channel, and the context may be cancelled. *)
Record Arrival : Type := mk_Arrival {
  a_external : list task;
  a_completion : list task;
  a_ctx_Err : option error;
}.

Definition arrive (a : Arrival) (d : DAGStore) : DAGStore :=
  mk_DAGStore (d_ctx d)
    (match d_ctx_Err d with Some e => Some e | None => a_ctx_Err a end)
    (d_store d) (d_indices d) (d_failureCh d) (d_traceCh d) (d_internalCh d)
    (d_externalCh d ++ a_external a) (d_completionCh d ++ a_completion a)
    (d_shards d).

Definition consumeNext (pick1 pick2 : nat) (a : Arrival) (d : DAGStore) : Consumed :=
  match select_ pick1 d [recv_internalCh; ctx_Done] with
  | Some r => r
  | None (* default: *) =>
      match select_ pick2 (arrive a d) [recv_externalCh; recv_completionCh; ctx_Done] with
      | Some r => r
      | None => Blocks (arrive a d)
      end
  end.

(** ** control *)

(** The choices one turn of the loop depends on. *)
Record Turn : Type := mk_Turn {
  pick1 : nat;
  pick2 : nat;
  arrival : Arrival;
}.

Inductive Exit : Type :=
| Returned (e : error) (d : DAGStore) (log : list Effect)
| Crashed (p : Panic) (log : list Effect)
| Running (d : DAGStore) (log : list Effect).

(** for { ... }, one turn of the schedule per call of consumeNext; the
    loop is still [Running] when the schedule is used up.  The calls of
    the logger on the way out (lines 48-52) and its Debugw calls are not
    recorded: the log holds what the loop does to shards, channels,
    workers and the metadata store. *)
Fixpoint control (sched : list Turn) (d : DAGStore) (log : list Effect) : Exit :=
  match sched with
  | [] => Running d log
  | turn :: rest =>
      match consumeNext (pick1 turn) (pick2 turn) (arrival turn) d with
      | Failed e => Returned e d log
      | Blocks d' => control rest d' log
      | Got tsk d' =>
          match process d' tsk with
          | Continue d'' l => control rest d'' (log ++ l)
          | Panics p => Crashed p log
          end
      end
  end.

End Loop.

(** ** An in-memory store, to run the loop on concrete inputs *)

Module Mem.

(** Modelled from the spec: the metadata store and the methods persist and
    shardFromPersistentState, which are not part of dagstore_control.go.
    The store is key-value and holds the record written last under the
    key of a shard; the reload copies the persisted fields (state, error,
    lazy flag, mount) into the record and fails when the store has
    nothing under the key; deleting an absent key reports not-found. *)
Definition reload (p s : Shard) : Shard :=
  mk_Shard (s_key s) (s_state p) (s_err p) (s_lazy p) (s_mount p)
           (s_wRegister s) (s_wRecover s) (s_wAcquire s)
           (s_recoverOnNextAcquire s).

Definition mem_shardFromPersistentState (st : gmap string Shard) (s : Shard)
    : option error * Shard :=
  match st !! s_key s with
  | Some p => (None, reload p s)
  | None => (Some ds_ErrNotFound, s)
  end.

Definition mem_persist (s : Shard) (st : gmap string Shard)
    : option error * gmap string Shard :=
  (None, <[s_key s := s]> st).

Definition mem_Delete (st : gmap string Shard) (k : shard_Key)
    : option error * gmap string Shard :=
  match st !! k with
  | Some _ => (None, delete k st)
  | None => (Some ds_ErrNotFound, st)
  end.

(** The index repository: what StatFullIndex answers for each key it
    knows; for the others, no index and no error. *)
Definition mem_StatFullIndex (ix : gmap string (Stat * option error))
    (k : shard_Key) : Stat * option error :=
  default (mk_Stat false, None) (ix !! k).

Global Instance externals
    : Externals (gmap string Shard) (gmap string (Stat * option error)) := {|
  shardFromPersistentState := mem_shardFromPersistentState;
  persist := mem_persist;
  store_Delete := mem_Delete;
  StatFullIndex := mem_StatFullIndex;
|}.

End Mem.

(** Concrete values for the examples. *)
Definition w1 : waiter := mk_waiter (ctx_of 1) (Some 1%nat).
Definition w2 : waiter := mk_waiter (ctx_of 2) (Some 2%nat).
Definition w3 : waiter := mk_waiter (ctx_of 3) (Some 3%nat).
Definition E0 : error := errors_New "mount unreachable".

(** Shard "A", on mount 7, with nobody waiting. *)
Definition shardA (st : ShardState) (e : option error) : Shard :=
  mk_Shard "A" st e false 7%nat None None [] false.

(** Shard "A" in state [st] with a registration waiter, a recovery
    waiter and two queued acquirers. *)
Definition busyA (st : ShardState) (e : option error) : Shard :=
  mk_Shard "A" st e false 7%nat (Some w1) (Some w2) [w3; w1] false.

(** Shard "A" errored, with one queued acquirer and recovery asked for on
    the next acquire. *)
Definition erroredA : Shard :=
  mk_Shard "A" ShardStateErrored (Some E0) false 7%nat None None [w2] true.

(** A store with one shard, at address 0, persisted as it is in memory,
    with the tasks [ext] waiting in the external channel; the context of
    the store is [ctx_of 0]; a failure channel and a trace channel are
    configured. *)
Definition store_of (ix : gmap string (Stat * option error)) (s : Shard)
    (ext : list task)
    : @DAGStore (gmap string Shard) (gmap string (Stat * option error)) :=
  mk_DAGStore (ctx_of 0) None {[ s_key s := s ]} ix (Some 8%nat) (Some 9%nat)
              [] ext [] {[ 0%nat := s ]}.

Definition storeA (s : Shard) (ext : list task) := store_of ∅ s ext.

(** The same store before anything was persisted. *)
Definition unpersistedA (s : Shard)
    : @DAGStore (gmap string Shard) (gmap string (Stat * option error)) :=
  mk_DAGStore (ctx_of 0) None ∅ ∅ (Some 8%nat) (Some 9%nat)
              [] [] [] {[ 0%nat := s ]}.

(** Shard "A" is Available in memory while the metadata store holds it
    as Errored. *)
Definition staleA
    : @DAGStore (gmap string Shard) (gmap string (Stat * option error)) :=
  mk_DAGStore (ctx_of 0) None {[ "A" := shardA ShardStateErrored (Some E0) ]} ∅
              (Some 8%nat) (Some 9%nat) [] [] []
              {[ 0%nat := shardA ShardStateAvailable None ]}.

Definition no_arrival : Arrival := mk_Arrival [] [] None.
Definition turn0 : Turn := mk_Turn 0 0 no_arrival.

(** A turn during which a worker reports that shard 0 is available. *)
Definition turn_available : Turn :=
  mk_Turn 0 0 (mk_Arrival [] [mk_task OpShardMakeAvailable 0%nat None None] None).

(** ** Reading the effect log *)

(** The (waiter, result) pairs handed to the dispatcher, in order: one
    per waiter of each call of dispatchResult. *)
Definition dispatched (log : list Effect) : list (option waiter * ShardResult) :=
  log ≫= λ e,
    match e with
    | Call_dispatchResult res ws => (λ w, (w, res)) <$> ws
    | _ => []
    end.

(** The call that notifies a waiter slot, if the slot is set, and the
    pair the dispatcher gets from it. *)
Definition notify (slot : option waiter) (res : ShardResult) : list Effect :=
  match slot with
  | Some w => [Call_dispatchResult res [Some w]]
  | None => []
  end.

Definition reply_to (slot : option waiter) (res : ShardResult)
    : list (option waiter * ShardResult) :=
  match slot with
  | Some w => [(Some w, res)]
  | None => []
  end.

(** The acquire workers started, in order. *)
Definition acquire_workers (log : list Effect) : list (Ctx * waiter * loc * Mount) :=
  omap (λ e, match e with
             | Go_acquireAsync c w s m => Some (c, w, s, m)
             | _ => None
             end) log.

(** The initializer workers started, in order. *)
Definition initialize_workers (log : list Effect) : list (Ctx * loc * Mount) :=
  omap (λ e, match e with
             | Go_initializeShard c s m => Some (c, s, m)
             | _ => None
             end) log.

(** The records written to the metadata store, in order. *)
Definition persisted (log : list Effect) : list Shard :=
  omap (λ e, match e with
             | Call_persist s => Some s
             | _ => None
             end) log.

(** The errors of the writes the loop logged, in order. *)
Definition persist_failures (log : list Effect) : list error :=
  omap (λ e, match e with
             | Log_failed_to_persist e => Some e
             | _ => None
             end) log.

(** The tasks the loop queued for itself, in order. *)
Definition queued (log : list Effect) : list task :=
  concat (queued_internal <$> log).

(** The notifications sent to the failure channel of the application. *)
Definition failure_notifications (log : list Effect) : list (ShardResult * waiter) :=
  omap (λ e, match e with
             | Send_dispatchFailuresCh res w => Some (res, w)
             | _ => None
             end) log.

(** Every effect of [log] happens with the mutex of shard [l] held: the
    log starts with its Lock, ends with its Unlock, and has no other
    operation on a mutex. *)
Definition is_mutex_op (e : Effect) : bool :=
  match e with
  | Lock _ | Unlock _ => true
  | _ => false
  end.

Definition under_lock (l : loc) (log : list Effect) : Prop :=
  ∃ mid, log = Lock l :: mid ++ [Unlock l]
         ∧ forallb (λ e, negb (is_mutex_op e)) mid = true.

(** err != nil iff state == Errored *)
Definition err_iff_errored (s : Shard) : Prop :=
  s_err s ≠ None ↔ s_state s = ShardStateErrored.

(** The record of the shard of [tsk] when the loop releases its lock. *)
Definition released {Store Indices} `{!Externals Store Indices}
    (d : @DAGStore Store Indices) (tsk : task) : option Shard :=
  match process d tsk with
  | Continue d' _ => d_shards d' !! t_shard tsk
  | Panics _ => None
  end.

(** ** The end of an iteration, as a function of the frame the switch
    leaves *)

Section Epilogue.

Context {Store Indices : Type} `{!Externals Store Indices}.

(** What the persist block adds to the log. *)
Definition persist_effects (f : @Frame Store) : list Effect :=
  if f_persist f then
    Call_persist (f_s f) ::
      match (persist (f_s f) (f_store f)).1 with
      | Some e => [Log_failed_to_persist e]
      | None => []
      end
  else [].

(** The metadata store after the persist block. *)
Definition persist_store (f : @Frame Store) : Store :=
  if f_persist f then (persist (f_s f) (f_store f)).2 else f_store f.

(** What the trace block adds to the log. *)
Definition trace_effects (d : @DAGStore Store Indices) (tsk : task) (s : Shard)
    : list Effect :=
  match d_traceCh d with
  | Some _ =>
      [Send_traceCh
         (mk_Trace (s_key s) (t_op tsk) (mk_ShardInfo (s_state s) (s_err s)))]
  | None => []
  end.

(** The log of the iteration whose switch leaves [f]. *)
Definition iteration_log (d : @DAGStore Store Indices) (tsk : task)
    (f : @Frame Store) : list Effect :=
  f_log f ++ persist_effects f ++ trace_effects d tsk (f_s f)
    ++ [Unlock (t_shard tsk)].

(** The store when that iteration ends. *)
Definition iteration_store (d : @DAGStore Store Indices) (tsk : task)
    (f : @Frame Store) : @DAGStore Store Indices :=
  mk_DAGStore (d_ctx d) (d_ctx_Err d) (persist_store f) (d_indices d)
    (d_failureCh d) (d_traceCh d)
    (d_internalCh d ++ queued (iteration_log d tsk f))
    (d_externalCh d) (d_completionCh d)
    (<[t_shard tsk := f_s f]> (d_shards d)).

(** The frame on entry to the switch. *)
Definition entry (d : @DAGStore Store Indices) (tsk : task) (s : Shard)
    : @Frame Store :=
  mk_Frame s true (d_store d) [Lock (t_shard tsk)].

(** What the reload of [s] from the metadata store returns, and the
    record it leaves. *)
Definition reload_error (d : @DAGStore Store Indices) (s : Shard) : option error :=
  (shardFromPersistentState (d_store d) s).1.

Definition reloaded (d : @DAGStore Store Indices) (s : Shard) : Shard :=
  (shardFromPersistentState (d_store d) s).2.

(** The three cases in which the loop leaves persist false. *)
Definition skips_persist (d : @DAGStore Store Indices) (tsk : task) (s : Shard)
    : bool :=
  bool_decide (t_op tsk = OpShardDestroy)
  || (bool_decide (t_op tsk = OpShardAcquire ∨ t_op tsk = OpShardRecover)
      && negb (is_nil (reload_error d s))).

(** The state and err the transition table gives after a task: what
    OpShardMakeAvailable and OpShardFail assign, what the reload of
    OpShardAcquire and OpShardRecover leaves, and the values on entry for
    the other operations. *)
Definition state_after (d : @DAGStore Store Indices) (tsk : task) (s : Shard)
    : ShardState :=
  if decide (t_op tsk = OpShardMakeAvailable) then ShardStateAvailable
  else if decide (t_op tsk = OpShardFail) then ShardStateErrored
  else if decide (t_op tsk = OpShardAcquire ∨ t_op tsk = OpShardRecover)
  then s_state (reloaded d s)
  else s_state s.

Definition err_after (d : @DAGStore Store Indices) (tsk : task) (s : Shard)
    : option error :=
  if decide (t_op tsk = OpShardMakeAvailable) then None
  else if decide (t_op tsk = OpShardFail) then t_err tsk
  else if decide (t_op tsk = OpShardAcquire ∨ t_op tsk = OpShardRecover)
  then s_err (reloaded d s)
  else s_err s.

End Epilogue.

(** ** What a case of the switch may do *)

(** The effects a case of the switch may log: anything but an operation
    on a mutex, a write of the record, or a trace. *)
Definition calm (e : Effect) : bool :=
  match e with
  | Lock _ | Unlock _ | Call_persist _ | Log_failed_to_persist _
  | Send_traceCh _ => false
  | _ => true
  end.

(** A computation is [quiet] when it only appends calm effects to the
    log and can panic only on a nil pointer. *)
Definition quiet {Store A} (m : @M Store A) : Prop :=
  ∀ f, match m f with
       | Ok _ f' => ∃ effs, f_log f' = f_log f ++ effs ∧ forallb calm effs = true
       | Panicked p => p = nil_pointer_dereference
       end.

(** ** More readings of the log, and more inputs *)

(** The traces sent to the trace channel, in order. *)
Definition traces (log : list Effect) : list Trace :=
  omap (λ e, match e with
             | Send_traceCh n => Some n
             | _ => None
             end) log.

(** The trace of a record after the operation [o]. *)
Definition trace_of (o : OpType) (s : Shard) : Trace :=
  mk_Trace (s_key s) o (mk_ShardInfo (s_state s) (s_err s)).

(** The OpShardFail that failShard queues when OpShardRegister finds the
    shard at [l] in state [st] instead of New. *)
Definition not_new_error (st : ShardState) : error :=
  fmt_Errorf "%w: expected shard to be in 'new' state; was: %s"
    [ArgState st] (Some ErrShardInitializationFailed).

Definition not_new_Fail (l : loc) (st : ShardState) : task :=
  mk_task OpShardFail l None (Some (not_new_error st)).

(** errors.Is(err, ErrShardInitializationFailed): follows the chain of
    wrapped errors. *)
Fixpoint errors_Is_ErrShardInitializationFailed (e : error) : bool :=
  match e with
  | ErrShardInitializationFailed => true
  | fmt_wrapError _ _ w => errors_Is_ErrShardInitializationFailed w
  | _ => false
  end.

(** The channels callers and workers send to. *)
Definition inbox {Store Indices} (d : @DAGStore Store Indices)
    : list task * list task :=
  (d_externalCh d, d_completionCh d).

(** Shard "A", new and registered with lazy initialization. *)
Definition lazyA : Shard :=
  mk_Shard "A" ShardStateNew None true 7%nat None None [] false.

(** An index repository that holds the full index of "A". *)
Definition indexedA : gmap string (Stat * option error) :=
  {[ "A" := (mk_Stat true, None) ]}.

(** A store whose context is done with [e], with tasks waiting in all
    three channels. *)
Definition closedA (e : error)
    : @DAGStore (gmap string Shard) (gmap string (Stat * option error)) :=
  mk_DAGStore (ctx_of 0) (Some e) {[ "A" := shardA ShardStateNew None ]} ∅
              (Some 8%nat) (Some 9%nat)
              [mk_task OpShardMakeAvailable 0%nat None None]
              [mk_task OpShardAcquire 0%nat (Some w1) None]
              [mk_task OpShardFail 0%nat None (Some E0)]
              {[ 0%nat := shardA ShardStateNew None ]}.

(** A metadata store whose Delete always fails with [e], next to the
    in-memory methods. *)
Definition failing_Delete (e : error)
    : Externals (gmap string Shard) (gmap string (Stat * option error)) := {|
  shardFromPersistentState := Mem.mem_shardFromPersistentState;
  persist := Mem.mem_persist;
  store_Delete := λ st _, (Some e, st);
  StatFullIndex := Mem.mem_StatFullIndex;
|}.






(** * Properties *)

Section Properties.

Context {Store Indices : Type} `{!Externals Store Indices}.
Implicit Types (d : @DAGStore Store Indices) (f : @Frame Store).
Implicit Types (tsk : task) (s : Shard) (log : list Effect).

(** *** Values *)

Lemma defined_ops_cases (o : OpType) :
  o ∈ defined_ops ↔
  o = OpShardRegister ∨ o = OpShardInitialize ∨ o = OpShardMakeAvailable
  ∨ o = OpShardDestroy ∨ o = OpShardAcquire ∨ o = OpShardFail
  ∨ o = OpShardRecover.
Proof. unfold defined_ops. rewrite !elem_of_cons, elem_of_nil. tauto. Qed.

(** X1: String() is defined exactly on the seven constants of OpType;
    for any other value the index is out of range and the call panics. *)
Lemma OpType_String_defined (o : OpType) :
  is_Some (OpType_String o) ↔ o ∈ defined_ops.
Proof.
  rewrite defined_ops_cases. unfold OpType_String, OpShardRegister,
    OpShardInitialize, OpShardMakeAvailable, OpShardDestroy, OpShardAcquire,
    OpShardFail, OpShardRecover.
  destruct (Z.ltb_spec o 0) as [Hlt|Hge].
  - split; [by intros [? ?] | lia].
  - rewrite lookup_lt_is_Some. simpl. lia.
Qed.

(** What fmt.Errorf wraps is what errors.Unwrap gives back. *)
Lemma errors_Unwrap_fmt_Errorf format args (operand : option error) :
  errors_Unwrap (fmt_Errorf format args operand) = operand.
Proof. by destruct operand. Qed.

(** *** The monad *)

Ltac run :=
  cbv [mbind M_bind mret M_ret update_s get_s get_store put_store
       set_persist get_persist panic deref];
  simpl.

Lemma for_range_emit {A} (g : A → Effect) (xs : list A) f :
  for_range xs (λ x, emit (g x)) f
  = Ok () (mk_Frame (f_s f) (f_persist f) (f_store f) (f_log f ++ (g <$> xs))).
Proof.
  revert f. induction xs as [|x xs IH]; intros f; simpl.
  - rewrite app_nil_r. by destruct f.
  - unfold mbind, M_bind. simpl. rewrite IH. simpl. by rewrite <- app_assoc.
Qed.

Lemma quiet_ret {A} (a : A) : quiet (Store := Store) (mret a).
Proof. intros f. exists []. by rewrite app_nil_r. Qed.

Lemma quiet_bind {A B} (m : M A) (k : A → M B) :
  quiet (Store := Store) m → (∀ a, quiet (k a)) → quiet (m ≫= k).
Proof.
  intros Hm Hk f. specialize (Hm f). unfold mbind, M_bind.
  destruct (m f) as [a f1|p]; [|done].
  destruct Hm as (e1 & E1 & H1). specialize (Hk a f1).
  destruct (k a f1) as [b f2|p]; [|done].
  destruct Hk as (e2 & E2 & H2). exists (e1 ++ e2).
  rewrite forallb_app, H1, H2, E2, E1. by rewrite app_assoc.
Qed.

Lemma quiet_emit (e : Effect) : calm e = true → quiet (Store := Store) (emit e).
Proof. intros He f. exists [e]. simpl. by rewrite He. Qed.

Lemma quiet_update_s (g : Shard → Shard) : quiet (Store := Store) (update_s g).
Proof. intros f. exists []. simpl. by rewrite app_nil_r. Qed.

Lemma quiet_put_store (st : Store) : quiet (put_store st).
Proof. intros f. exists []. simpl. by rewrite app_nil_r. Qed.

Lemma quiet_set_persist (b : bool) : quiet (Store := Store) (set_persist b).
Proof. intros f. exists []. simpl. by rewrite app_nil_r. Qed.

Lemma quiet_get_s : quiet (Store := Store) get_s.
Proof. intros f. exists []. simpl. by rewrite app_nil_r. Qed.

Lemma quiet_get_store : quiet (Store := Store) get_store.
Proof. intros f. exists []. simpl. by rewrite app_nil_r. Qed.

Lemma quiet_deref {A} (p : option A) : quiet (Store := Store) (deref p).
Proof. destruct p as [a|]; [apply quiet_ret | by intros f]. Qed.

Lemma quiet_for_range {A} (xs : list A) (body : A → M unit) :
  (∀ x, quiet (Store := Store) (body x)) → quiet (for_range xs body).
Proof.
  intros Hb. induction xs as [|x xs IH]; simpl.
  - apply quiet_ret.
  - apply quiet_bind; [apply Hb | intros _; apply IH].
Qed.

Create HintDb quiet.
#[local] Hint Resolve quiet_ret quiet_emit quiet_update_s quiet_put_store
  quiet_set_persist quiet_get_s quiet_get_store quiet_deref : quiet.

Ltac quiet_step :=
  match goal with
  | |- quiet (_ ≫= _) => apply quiet_bind; [|intros ?]
  | |- quiet (for_range _ _) => apply quiet_for_range; intros ?
  | |- quiet (match ?x with _ => _ end) => destruct x
  | |- quiet _ => solve [eauto with quiet]
  end.

Lemma quiet_OpShardRegister tsk : quiet (Store := Store) (case_OpShardRegister tsk).
Proof. unfold case_OpShardRegister. repeat quiet_step. Qed.

Lemma quiet_OpShardInitialize d tsk : quiet (case_OpShardInitialize d tsk).
Proof. unfold case_OpShardInitialize. repeat quiet_step. Qed.

Lemma quiet_OpShardMakeAvailable tsk :
  quiet (Store := Store) (case_OpShardMakeAvailable tsk).
Proof. unfold case_OpShardMakeAvailable. repeat quiet_step. Qed.

Lemma quiet_OpShardAcquire d tsk : quiet (case_OpShardAcquire d tsk).
Proof. unfold case_OpShardAcquire. repeat quiet_step. Qed.

Lemma quiet_OpShardFail d tsk : quiet (case_OpShardFail d tsk).
Proof. unfold case_OpShardFail. repeat quiet_step. Qed.

Lemma quiet_OpShardRecover tsk : quiet (Store := Store) (case_OpShardRecover tsk).
Proof. unfold case_OpShardRecover. repeat quiet_step. Qed.

Lemma quiet_OpShardDestroy tsk : quiet (Store := Store) (case_OpShardDestroy tsk).
Proof. unfold case_OpShardDestroy. repeat quiet_step. Qed.

(** *** The switch *)


Lemma switch_op_quiet d tsk : t_op tsk ∈ defined_ops → quiet (switch_op d tsk).
Proof.
  intros Hop. unfold switch_op.
  repeat case_decide;
    eauto using quiet_OpShardRegister, quiet_OpShardInitialize,
      quiet_OpShardMakeAvailable, quiet_OpShardAcquire, quiet_OpShardFail,
      quiet_OpShardRecover, quiet_OpShardDestroy.
  apply defined_ops_cases in Hop. tauto.
Qed.

Lemma switch_op_default d tsk f :
  t_op tsk ∉ defined_ops →
  switch_op d tsk f = Panicked (unrecognized_shard_operation (t_op tsk)).
Proof.
  intros Hop. unfold switch_op.
  repeat case_decide; try done; exfalso; apply Hop, defined_ops_cases; tauto.
Qed.

Lemma process_eq d tsk s :
  d_shards d !! t_shard tsk = Some s →
  process d tsk =
    match switch_op d tsk (entry d tsk s) with
    | Ok _ f => Continue (iteration_store d tsk f) (iteration_log d tsk f)
    | Panicked p => Panics p
    end.
Proof.
  intros Hs. unfold process, locked_section. rewrite Hs.
  unfold mbind at 1 2. unfold M_bind at 1 2.
  change (emit (Lock (t_shard tsk)) (mk_Frame s true (d_store d) []))
    with (Ok () (entry d tsk s)).
  simpl. destruct (switch_op d tsk (entry d tsk s)) as [[] f|p]; [|done].
  unfold iteration_store, iteration_log, persist_step, trace_step,
    persist_effects, persist_store, trace_effects.
  run. unfold emit.
  destruct (f_persist f); simpl.
  - destruct (persist (f_s f) (f_store f)) as [[e|] st'];
      simpl; destruct (d_traceCh d); simpl; rewrite <- ?app_assoc; done.
  - destruct (d_traceCh d); simpl; rewrite <- ?app_assoc; done.
Qed.

(** *** Reading the log of an iteration *)

Lemma dispatched_app log1 log2 :
  dispatched (log1 ++ log2) = dispatched log1 ++ dispatched log2.
Proof. unfold dispatched. apply bind_app. Qed.

Lemma queued_app log1 log2 : queued (log1 ++ log2) = queued log1 ++ queued log2.
Proof. unfold queued. by rewrite fmap_app, concat_app. Qed.

Lemma acquire_workers_app log1 log2 :
  acquire_workers (log1 ++ log2) = acquire_workers log1 ++ acquire_workers log2.
Proof. apply omap_app. Qed.

Lemma initialize_workers_app log1 log2 :
  initialize_workers (log1 ++ log2)
  = initialize_workers log1 ++ initialize_workers log2.
Proof. apply omap_app. Qed.

Lemma persisted_app log1 log2 :
  persisted (log1 ++ log2) = persisted log1 ++ persisted log2.
Proof. apply omap_app. Qed.

Lemma failure_notifications_app log1 log2 :
  failure_notifications (log1 ++ log2)
  = failure_notifications log1 ++ failure_notifications log2.
Proof. apply omap_app. Qed.

Ltac epilogue :=
  intros; unfold iteration_log, persist_effects, trace_effects;
  repeat case_match; simpl; by rewrite ?app_nil_r.

Lemma dispatched_iteration_log d tsk f :
  dispatched (iteration_log d tsk f) = dispatched (f_log f).
Proof. rewrite <- (app_nil_r (dispatched (f_log f))). unfold iteration_log.
  rewrite dispatched_app. f_equal. epilogue. Qed.

Lemma queued_iteration_log d tsk f :
  queued (iteration_log d tsk f) = queued (f_log f).
Proof. rewrite <- (app_nil_r (queued (f_log f))). unfold iteration_log.
  rewrite queued_app. f_equal. epilogue. Qed.

Lemma acquire_workers_iteration_log d tsk f :
  acquire_workers (iteration_log d tsk f) = acquire_workers (f_log f).
Proof. rewrite <- (app_nil_r (acquire_workers (f_log f))). unfold iteration_log.
  rewrite acquire_workers_app. f_equal. epilogue. Qed.

Lemma initialize_workers_iteration_log d tsk f :
  initialize_workers (iteration_log d tsk f) = initialize_workers (f_log f).
Proof. rewrite <- (app_nil_r (initialize_workers (f_log f))). unfold iteration_log.
  rewrite initialize_workers_app. f_equal. epilogue. Qed.

Lemma failure_notifications_iteration_log d tsk f :
  failure_notifications (iteration_log d tsk f) = failure_notifications (f_log f).
Proof. rewrite <- (app_nil_r (failure_notifications (f_log f))).
  unfold iteration_log. rewrite failure_notifications_app. f_equal. epilogue. Qed.

Lemma persisted_iteration_log d tsk f :
  persisted (iteration_log d tsk f)
  = persisted (f_log f) ++ (if f_persist f then [f_s f] else []).
Proof. unfold iteration_log. rewrite persisted_app. f_equal. epilogue. Qed.

(** The calm effects hold no write of the record and no mutex
    operation. *)
Lemma calm_persisted log : forallb calm log = true → persisted log = [].
Proof.
  induction log as [|e log IH]; [done|]. simpl.
  intros [He Hl]%andb_prop. unfold persisted in *. simpl.
  rewrite (IH Hl). by destruct e.
Qed.

Lemma calm_no_mutex log :
  forallb calm log = true → forallb (λ e, negb (is_mutex_op e)) log = true.
Proof.
  induction log as [|e log IH]; [done|]. simpl.
  intros [He Hl]%andb_prop. rewrite (IH Hl). by destruct e.
Qed.

Lemma persist_failures_app log1 log2 :
  persist_failures (log1 ++ log2) = persist_failures log1 ++ persist_failures log2.
Proof. apply omap_app. Qed.

Lemma persist_failures_iteration_log d tsk f :
  persist_failures (iteration_log d tsk f)
  = persist_failures (f_log f)
    ++ (if f_persist f then
          match (persist (f_s f) (f_store f)).1 with
          | Some e => [e]
          | None => []
          end
        else []).
Proof. unfold iteration_log. rewrite persist_failures_app. f_equal. epilogue. Qed.

Lemma calm_persist_failures log :
  forallb calm log = true → persist_failures log = [].
Proof.
  induction log as [|e log IH]; [done|]. simpl.
  intros [He Hl]%andb_prop. unfold persist_failures in *. simpl.
  rewrite (IH Hl). by destruct e.
Qed.

(** *** The default branch *)

(** C10: for a task whose op is one of the seven constants of OpType, the
    iteration never ends in the panic of the default branch of the
    switch. *)
Theorem default_branch_unreachable d tsk (o : OpType) :
  t_op tsk ∈ defined_ops →
  process d tsk ≠ Panics (unrecognized_shard_operation o).
Proof.
  intros Hop.
  destruct (d_shards d !! t_shard tsk) as [s|] eqn:Hs;
    [|unfold process; by rewrite Hs].
  rewrite (process_eq d tsk s Hs).
  pose proof (switch_op_quiet d tsk Hop (entry d tsk s)) as Hq.
  destruct (switch_op d tsk (entry d tsk s)) as [[] f|p]; [done|].
  by subst p.
Qed.

(** X3: for an op outside the seven constants the default branch is
    what runs: the iteration panics, and the panic carries the op. *)
Lemma default_branch_reached d tsk s :
  t_op tsk ∉ defined_ops →
  d_shards d !! t_shard tsk = Some s →
  process d tsk = Panics (unrecognized_shard_operation (t_op tsk)).
Proof.
  intros Hop Hs. rewrite (process_eq d tsk s Hs).
  by rewrite switch_op_default.
Qed.

(** Names the frame the switch leaves. *)
Ltac name_frame f' :=
  match goal with
  | |- context [Ok () ?x] => set (f' := x)
  | |- context [iteration_store _ _ ?x] => set (f' := x)
  end.

(** *** Which case runs *)

Ltac pick_case H :=
  unfold switch_op; rewrite H; repeat case_decide; done.

Lemma switch_OpShardRegister d tsk :
  t_op tsk = OpShardRegister → switch_op d tsk = case_OpShardRegister tsk.
Proof. intros H. pick_case H. Qed.

Lemma switch_OpShardInitialize d tsk :
  t_op tsk = OpShardInitialize → switch_op d tsk = case_OpShardInitialize d tsk.
Proof. intros H. pick_case H. Qed.

Lemma switch_OpShardMakeAvailable d tsk :
  t_op tsk = OpShardMakeAvailable →
  switch_op d tsk = case_OpShardMakeAvailable tsk.
Proof. intros H. pick_case H. Qed.

Lemma switch_OpShardAcquire d tsk :
  t_op tsk = OpShardAcquire → switch_op d tsk = case_OpShardAcquire d tsk.
Proof. intros H. pick_case H. Qed.

Lemma switch_OpShardFail d tsk :
  t_op tsk = OpShardFail → switch_op d tsk = case_OpShardFail d tsk.
Proof. intros H. pick_case H. Qed.

Lemma switch_OpShardRecover d tsk :
  t_op tsk = OpShardRecover → switch_op d tsk = case_OpShardRecover tsk.
Proof. intros H. pick_case H. Qed.

Lemma switch_OpShardDestroy d tsk :
  t_op tsk = OpShardDestroy → switch_op d tsk = case_OpShardDestroy tsk.
Proof. intros H. pick_case H. Qed.

(** *** OpShardMakeAvailable and OpShardFail, in closed form *)

Lemma case_OpShardMakeAvailable_eq tsk f :
  case_OpShardMakeAvailable tsk f =
  let s := f_s f in
  let res := mk_ShardResult (s_key s) None in
  Ok ()
    (mk_Frame
       (mk_Shard (s_key s) ShardStateAvailable None (s_lazy s) (s_mount s)
                 None None [] (s_recoverOnNextAcquire s))
       (f_persist f) (f_store f)
       (f_log f ++ notify (s_wRegister s) res ++ notify (s_wRecover s) res
          ++ ((λ w, Go_acquireAsync (w_ctx w) w (t_shard tsk) (s_mount s))
                <$> s_wAcquire s))).
Proof.
  unfold case_OpShardMakeAvailable.
  cbv [mbind M_bind mret M_ret update_s get_s]. simpl.
  destruct f as [[k st e lz m wreg wrec wacq r] p sto lg]; simpl.
  destruct wreg, wrec; simpl; unfold emit at 1; simpl;
    try (unfold emit at 1; simpl);
    rewrite (for_range_emit (λ w, Go_acquireAsync (w_ctx w) w (t_shard tsk) m));
    simpl; rewrite <- ?app_assoc; reflexivity.
Qed.

Lemma dispatched_notify slot res : dispatched (notify slot res) = reply_to slot res.
Proof. by destruct slot. Qed.

Lemma dispatched_variadic res (ws : list waiter) :
  dispatched [Call_dispatchResult res (Some <$> ws)] = (λ w, (Some w, res)) <$> ws.
Proof.
  unfold dispatched. simpl. rewrite app_nil_r.
  by rewrite <- list_fmap_compose.
Qed.

Lemma dispatched_acquireAsync (g : waiter → Ctx * loc * Mount) (ws : list waiter) :
  dispatched ((λ w, Go_acquireAsync (g w).1.1 w (g w).1.2 (g w).2) <$> ws) = [].
Proof. induction ws as [|w ws IH]; [done|]. simpl. apply IH. Qed.

Lemma acquire_workers_acquireAsync (l : loc) (m : Mount) (ws : list waiter) :
  acquire_workers ((λ w, Go_acquireAsync (w_ctx w) w l m) <$> ws)
  = (λ w, (w_ctx w, w, l, m)) <$> ws.
Proof.
  unfold acquire_workers.
  induction ws as [|w ws IH]; [done|]. simpl. f_equal. apply IH.
Qed.

Lemma acquire_workers_notify slot res : acquire_workers (notify slot res) = [].
Proof. by destruct slot. Qed.

(** C3: after OpShardMakeAvailable, whatever the record was, the state is
    Available and err is nil; wRegister and wRecover are nil and each got
    the success result {key} if it was set; wAcquire is empty and one
    acquire worker was started per queued waiter, in the order of the
    queue. *)
Theorem MakeAvailable_transition d tsk s :
  t_op tsk = OpShardMakeAvailable →
  d_shards d !! t_shard tsk = Some s →
  ∃ d' log s',
    process d tsk = Continue d' log
    ∧ d_shards d' !! t_shard tsk = Some s'
    ∧ s_state s' = ShardStateAvailable ∧ s_err s' = None
    ∧ s_wRegister s' = None ∧ s_wRecover s' = None ∧ s_wAcquire s' = []
    ∧ dispatched log
      = reply_to (s_wRegister s) (mk_ShardResult (s_key s) None)
        ++ reply_to (s_wRecover s) (mk_ShardResult (s_key s) None)
    ∧ acquire_workers log
      = (λ w, (w_ctx w, w, t_shard tsk, s_mount s)) <$> s_wAcquire s.
Proof.
  intros Hop Hs. rewrite (process_eq d tsk s Hs).
  rewrite (switch_OpShardMakeAvailable d tsk Hop).
  rewrite case_OpShardMakeAvailable_eq. cbv zeta.
  name_frame f'.
  exists (iteration_store d tsk f'), (iteration_log d tsk f'), (f_s f').
  split; [done|]. split; [apply lookup_insert_eq|].
  rewrite dispatched_iteration_log, acquire_workers_iteration_log.
  subst f'. simpl. repeat (split; [reflexivity|]).
  rewrite !dispatched_app, !dispatched_notify.
  rewrite !acquire_workers_app, !acquire_workers_notify.
  rewrite acquire_workers_acquireAsync. simpl. split; [|done].
  rewrite (dispatched_acquireAsync (λ w, (w_ctx w, t_shard tsk, s_mount s))).
  by rewrite app_nil_r.
Qed.

Lemma case_OpShardFail_eq d tsk f :
  case_OpShardFail d tsk f =
  let s := f_s f in
  let res msg := mk_ShardResult (s_key s) (Some (fmt_Errorf msg [] (t_err tsk))) in
  Ok ()
    (mk_Frame
       (mk_Shard (s_key s) ShardStateErrored (t_err tsk) (s_lazy s) (s_mount s)
                 None None [] (s_recoverOnNextAcquire s))
       (f_persist f) (f_store f)
       (f_log f
          ++ notify (s_wRegister s) (res "failed to register shard: %w")
          ++ notify (s_wRecover s) (res "failed to recover shard: %w")
          ++ (if (0 <? length (s_wAcquire s))%nat
              then [Call_dispatchResult (res "failed to acquire shard: %w")
                      (Some <$> s_wAcquire s)]
              else [])
          ++ match d_failureCh d with
             | Some _ =>
                 [Send_dispatchFailuresCh (mk_ShardResult (s_key s) (t_err tsk))
                    (mk_waiter (d_ctx d) (d_failureCh d))]
             | None => []
             end)).
Proof.
  unfold case_OpShardFail.
  cbv [mbind M_bind mret M_ret update_s get_s emit]. simpl.
  destruct f as [[k st e lz m wreg wrec wacq r] p sto lg]; simpl.
  destruct wreg, wrec, wacq, (d_failureCh d); simpl;
    rewrite <- ?app_assoc; simpl; rewrite ?app_nil_r; reflexivity.
Qed.

Lemma dispatched_nonempty res (ws : list waiter) :
  dispatched (if (0 <? length ws)%nat
              then [Call_dispatchResult res (Some <$> ws)] else [])
  = (λ w, (Some w, res)) <$> ws.
Proof. destruct ws as [|w ws]; [done|]. apply dispatched_variadic. Qed.

(** C4: after OpShardFail, wRegister and wRecover are nil and wAcquire is
    empty, and the dispatcher got exactly one result per waiter that was
    present: the error of the task wrapped under "failed to register
    shard" for wRegister, "failed to recover shard" for wRecover, and
    "failed to acquire shard" for each waiter of wAcquire, in that
    order. *)
Theorem Fail_transition d tsk s :
  t_op tsk = OpShardFail →
  d_shards d !! t_shard tsk = Some s →
  ∃ d' log s',
    process d tsk = Continue d' log
    ∧ d_shards d' !! t_shard tsk = Some s'
    ∧ s_wRegister s' = None ∧ s_wRecover s' = None ∧ s_wAcquire s' = []
    ∧ let res msg :=
        mk_ShardResult (s_key s) (Some (fmt_Errorf msg [] (t_err tsk))) in
      dispatched log
      = reply_to (s_wRegister s) (res "failed to register shard: %w")
        ++ reply_to (s_wRecover s) (res "failed to recover shard: %w")
        ++ ((λ w, (Some w, res "failed to acquire shard: %w")) <$> s_wAcquire s).
Proof.
  intros Hop Hs. rewrite (process_eq d tsk s Hs).
  rewrite (switch_OpShardFail d tsk Hop).
  rewrite case_OpShardFail_eq. cbv zeta.
  name_frame f'.
  exists (iteration_store d tsk f'), (iteration_log d tsk f'), (f_s f').
  split; [done|]. split; [apply lookup_insert_eq|].
  rewrite dispatched_iteration_log.
  subst f'. simpl. repeat (split; [reflexivity|]).
  rewrite !dispatched_app, !dispatched_notify. do 2 f_equal.
  rewrite dispatched_nonempty.
  destruct (d_failureCh d); simpl; by rewrite app_nil_r.
Qed.

(** *** OpShardAcquire on an errored shard *)

(** C7 (amended): an OpShardAcquire whose reload of the persisted state
    succeeds and leaves the shard Errored with recoverOnNextAcquire set
    appends the waiter of the acquirer to wAcquire, clears the flag, and
    queues an OpShardRecover for itself whose waiter carries the context
    of the store, not that of the acquirer; nothing is handed to the
    dispatcher. *)
Theorem Acquire_recoverOnNextAcquire d tsk s w :
  t_op tsk = OpShardAcquire →
  d_shards d !! t_shard tsk = Some s →
  t_waiter tsk = Some w →
  reload_error d s = None →
  s_state (reloaded d s) = ShardStateErrored →
  s_recoverOnNextAcquire (reloaded d s) = true →
  ∃ d' log s',
    process d tsk = Continue d' log
    ∧ d_shards d' !! t_shard tsk = Some s'
    ∧ s_wAcquire s' = s_wAcquire (reloaded d s) ++ [w]
    ∧ s_recoverOnNextAcquire s' = false
    ∧ s_state s' = ShardStateErrored
    ∧ queued log
      = [mk_task OpShardRecover (t_shard tsk) (Some (mk_waiter (d_ctx d) None)) None]
    ∧ d_internalCh d'
      = d_internalCh d
        ++ [mk_task OpShardRecover (t_shard tsk) (Some (mk_waiter (d_ctx d) None)) None]
    ∧ dispatched log = [].
Proof.
  intros Hop Hs Hw Herr Hst Hflag. rewrite (process_eq d tsk s Hs).
  rewrite (switch_OpShardAcquire d tsk Hop).
  unfold case_OpShardAcquire, reload_error, reloaded, entry, t_ctx, t_outCh in *.
  run. destruct (shardFromPersistentState (d_store d) s) as [err s1].
  simpl in *. subst err. rewrite Hw. simpl.
  rewrite decide_True by done. rewrite Hflag. unfold emit. simpl.
  name_frame f'.
  exists (iteration_store d tsk f'), (iteration_log d tsk f'), (f_s f').
  split; [done|]. split; [apply lookup_insert_eq|].
  change (d_internalCh (iteration_store d tsk f'))
    with (d_internalCh d ++ queued (iteration_log d tsk f')).
  rewrite queued_iteration_log, dispatched_iteration_log.
  subst f'. simpl. by destruct w.
Qed.

(** *** OpShardInitialize *)

(** X20: during OpShardInitialize an error of StatFullIndex is treated as
    "no full index", for every task.  When StatFullIndex returns no error
    and says that the index exists, and only then, the loop queues
    OpShardMakeAvailable and starts no worker, whether the task has a
    waiter or not.  In every other case, error or no index alike, the
    loop starts the initializer worker with the context of the waiter of
    the task, leaves the record as it is, queues nothing (no failure of
    the shard) and hands nothing to the dispatcher; a task without a
    waiter, as the restart of line 75 queues it, dies there on tsk.ctx. *)
Theorem Initialize_stat d tsk s :
  t_op tsk = OpShardInitialize →
  d_shards d !! t_shard tsk = Some s →
  let short_circuit :=
    ∃ d' log,
      process d tsk = Continue d' log
      ∧ d_shards d' !! t_shard tsk = Some s
      ∧ dispatched log = []
      ∧ failure_notifications log = []
      ∧ initialize_workers log = []
      ∧ queued log = [mk_task OpShardMakeAvailable (t_shard tsk) None None] in
  let initialize :=
    match t_waiter tsk with
    | Some w =>
        ∃ d' log,
          process d tsk = Continue d' log
          ∧ d_shards d' !! t_shard tsk = Some s
          ∧ dispatched log = []
          ∧ failure_notifications log = []
          ∧ initialize_workers log = [(w_ctx w, t_shard tsk, s_mount s)]
          ∧ queued log = []
    | None => process d tsk = Panics nil_pointer_dereference
    end in
  match StatFullIndex (d_indices d) (s_key s) with
  | (istat, None) => if st_Exists istat then short_circuit else initialize
  | (_, Some _) => initialize
  end.
Proof.
  intros Hop Hs. cbv zeta. rewrite (process_eq d tsk s Hs).
  rewrite (switch_OpShardInitialize d tsk Hop).
  unfold case_OpShardInitialize, entry, t_ctx. run.
  destruct (StatFullIndex (d_indices d) (s_key s)) as [[ex] [e|]];
    [|destruct ex]; simpl.
  2: { unfold emit; simpl. name_frame f'.
       exists (iteration_store d tsk f'), (iteration_log d tsk f').
       split; [done|]. split; [apply lookup_insert_eq|].
       rewrite queued_iteration_log, dispatched_iteration_log,
         initialize_workers_iteration_log, failure_notifications_iteration_log.
       by subst f'. }
  all: destruct (t_waiter tsk) as [w|]; simpl; [|done].
  all: unfold emit; simpl; name_frame f'.
  all: exists (iteration_store d tsk f'), (iteration_log d tsk f').
  all: split; [done|]; split; [apply lookup_insert_eq|].
  all: rewrite queued_iteration_log, dispatched_iteration_log,
         initialize_workers_iteration_log, failure_notifications_iteration_log.
  all: by subst f'.
Qed.

(** *** OpShardDestroy *)

(** X17: what an OpShardDestroy hands to the dispatcher: the wrapped
    error of the deletion when it is an error other than not-found (also
    behind wrapping), and nothing otherwise; the record is left as it is
    and is not written. *)
Lemma Destroy_dispatched d tsk s :
  t_op tsk = OpShardDestroy →
  d_shards d !! t_shard tsk = Some s →
  ∃ d' log,
    process d tsk = Continue d' log
    ∧ d_shards d' !! t_shard tsk = Some s
    ∧ persisted log = []
    ∧ dispatched log =
        match (store_Delete (d_store d) (s_key s)).1 with
        | Some e =>
            if errors_Is_ErrNotFound e then []
            else [(t_waiter tsk,
                   mk_ShardResult (s_key s)
                     (Some (fmt_Errorf "failed to delete shard %s: %w"
                              [ArgKey (s_key s)] (Some e))))]
        | None => []
        end.
Proof.
  intros Hop Hs. rewrite (process_eq d tsk s Hs).
  rewrite (switch_OpShardDestroy d tsk Hop).
  unfold case_OpShardDestroy, entry. run.
  destruct (store_Delete (d_store d) (s_key s)) as [[e|] st'];
    [destruct (errors_Is_ErrNotFound e) eqn:Hnf|];
    simpl; unfold emit; simpl.
  all: name_frame f'.
  all: exists (iteration_store d tsk f'), (iteration_log d tsk f').
  all: split; [done|]; split; [apply lookup_insert_eq|].
  all: rewrite persisted_iteration_log, dispatched_iteration_log.
  all: subst f'; simpl; by rewrite ?Hnf.
Qed.

(** *** What every case leaves in the frame *)

Ltac crunch :=
  cbv [mbind M_bind mret M_ret update_s get_s get_store put_store
       set_persist get_persist panic deref emit];
  simpl;
  repeat (case_match; simpl in *; simplify_eq);
  intros; simplify_eq; simpl; auto.

(** Decides the comparisons between constants of OpType. *)
Ltac resolve_ops :=
  repeat (case_decide || case_bool_decide);
  try done; try (exfalso; intuition congruence).

Lemma frame_OpShardRegister tsk f0 f :
  case_OpShardRegister tsk f0 = Ok () f →
  f_persist f = f_persist f0 ∧ f_store f = f_store f0
  ∧ s_state (f_s f) = s_state (f_s f0) ∧ s_err (f_s f) = s_err (f_s f0).
Proof. unfold case_OpShardRegister. crunch. Qed.

Lemma frame_OpShardInitialize d tsk f0 f :
  case_OpShardInitialize d tsk f0 = Ok () f →
  f_persist f = f_persist f0 ∧ f_store f = f_store f0
  ∧ s_state (f_s f) = s_state (f_s f0) ∧ s_err (f_s f) = s_err (f_s f0).
Proof.
  unfold case_OpShardInitialize, t_ctx. destruct (t_waiter tsk); crunch.
Qed.

Lemma frame_OpShardAcquire d tsk f0 f :
  case_OpShardAcquire d tsk f0 = Ok () f →
  let r := shardFromPersistentState (f_store f0) (f_s f0) in
  f_persist f = (if is_nil r.1 then f_persist f0 else false)
  ∧ f_store f = f_store f0
  ∧ s_state (f_s f) = s_state r.2 ∧ s_err (f_s f) = s_err r.2.
Proof.
  unfold case_OpShardAcquire, t_ctx, t_outCh.
  destruct (shardFromPersistentState (f_store f0) (f_s f0)) as [err s1] eqn:E.
  destruct (t_waiter tsk); crunch.
Qed.

Lemma frame_OpShardRecover tsk f0 f :
  case_OpShardRecover tsk f0 = Ok () f →
  let r := shardFromPersistentState (f_store f0) (f_s f0) in
  f_persist f = (if is_nil r.1 then f_persist f0 else false)
  ∧ f_store f = f_store f0
  ∧ s_state (f_s f) = s_state r.2 ∧ s_err (f_s f) = s_err r.2.
Proof.
  unfold case_OpShardRecover, t_ctx.
  destruct (shardFromPersistentState (f_store f0) (f_s f0)) as [err s1] eqn:E.
  destruct (t_waiter tsk); crunch.
Qed.

Lemma frame_OpShardDestroy tsk f0 f :
  case_OpShardDestroy tsk f0 = Ok () f →
  f_persist f = false
  ∧ f_store f = (store_Delete (f_store f0) (s_key (f_s f0))).2
  ∧ s_state (f_s f) = s_state (f_s f0) ∧ s_err (f_s f) = s_err (f_s f0).
Proof.
  unfold case_OpShardDestroy.
  destruct (store_Delete (f_store f0) (s_key (f_s f0))) as [err st'] eqn:E.
  crunch.
Qed.

Lemma switch_op_frame d tsk s f :
  switch_op d tsk (entry d tsk s) = Ok () f →
  f_persist f = negb (skips_persist d tsk s)
  ∧ f_store f = (if decide (t_op tsk = OpShardDestroy)
                 then (store_Delete (d_store d) (s_key s)).2 else d_store d)
  ∧ s_state (f_s f) = state_after d tsk s
  ∧ s_err (f_s f) = err_after d tsk s.
Proof.
  intros Hf.
  destruct (decide (t_op tsk ∈ defined_ops)) as [Hop|Hop];
    [|by rewrite switch_op_default in Hf].
  unfold skips_persist, state_after, err_after, reload_error, reloaded.
  apply defined_ops_cases in Hop.
  destruct Hop as [Hop|[Hop|[Hop|[Hop|[Hop|[Hop|Hop]]]]]]; rewrite Hop.
  - rewrite switch_OpShardRegister in Hf by done.
    apply frame_OpShardRegister in Hf. by resolve_ops.
  - rewrite switch_OpShardInitialize in Hf by done.
    apply frame_OpShardInitialize in Hf. by resolve_ops.
  - rewrite switch_OpShardMakeAvailable, case_OpShardMakeAvailable_eq in Hf
      by done.
    cbv zeta in Hf. injection Hf as <-. simpl. by resolve_ops.
  - rewrite switch_OpShardDestroy in Hf by done.
    apply frame_OpShardDestroy in Hf. by resolve_ops.
  - rewrite switch_OpShardAcquire in Hf by done.
    apply frame_OpShardAcquire in Hf. simpl in Hf.
    destruct Hf as (-> & -> & -> & ->). resolve_ops.
    by destruct (shardFromPersistentState (d_store d) s) as [[e|] s1].
  - rewrite switch_OpShardFail, case_OpShardFail_eq in Hf by done.
    cbv zeta in Hf. injection Hf as <-. simpl. by resolve_ops.
  - rewrite switch_OpShardRecover in Hf by done.
    apply frame_OpShardRecover in Hf. simpl in Hf.
    destruct Hf as (-> & -> & -> & ->). resolve_ops.
    by destruct (shardFromPersistentState (d_store d) s) as [[e|] s1].
Qed.

(** With a waiter in the task no case of the switch panics. *)
Lemma switch_op_total d tsk f w :
  t_op tsk ∈ defined_ops →
  t_waiter tsk = Some w →
  ∃ f', switch_op d tsk f = Ok () f'.
Proof.
  intros Hop Hw. apply defined_ops_cases in Hop.
  destruct Hop as [Hop|[Hop|[Hop|[Hop|[Hop|[Hop|Hop]]]]]].
  - rewrite switch_OpShardRegister by done.
    unfold case_OpShardRegister. crunch; eauto.
  - rewrite switch_OpShardInitialize by done.
    unfold case_OpShardInitialize, t_ctx. rewrite Hw. crunch; eauto.
  - rewrite switch_OpShardMakeAvailable, case_OpShardMakeAvailable_eq by done.
    eauto.
  - rewrite switch_OpShardDestroy by done.
    unfold case_OpShardDestroy. crunch; eauto.
  - rewrite switch_OpShardAcquire by done.
    unfold case_OpShardAcquire, t_ctx, t_outCh. rewrite Hw. crunch; eauto.
  - rewrite switch_OpShardFail, case_OpShardFail_eq by done. eauto.
  - rewrite switch_OpShardRecover by done.
    unfold case_OpShardRecover, t_ctx. rewrite Hw. crunch; eauto.
Qed.

(** *** The write of the record *)

(** C8: for every task with a defined op the iteration either dies on a
    nil waiter or runs to the Unlock, and then every effect of it happened
    with the shard locked; the record the loop leaves was written to the
    metadata store once, after the switch, unless the task is an
    OpShardDestroy or an OpShardAcquire or OpShardRecover whose reload
    failed, in which cases nothing was written; and when the write fails
    its error is only logged: the iteration ends like any other. *)
Theorem persist_after_transition d tsk s :
  t_op tsk ∈ defined_ops →
  d_shards d !! t_shard tsk = Some s →
  match process d tsk with
  | Panics p => p = nil_pointer_dereference ∧ t_waiter tsk = None
  | Continue d' log =>
      under_lock (t_shard tsk) log
      ∧ ∃ s', d_shards d' !! t_shard tsk = Some s'
        ∧ if skips_persist d tsk s then
            persisted log = [] ∧ persist_failures log = []
          else
            persisted log = [s']
            ∧ d_store d' = (persist s' (d_store d)).2
            ∧ persist_failures log
              = match (persist s' (d_store d)).1 with
                | Some e => [e]
                | None => []
                end
  end.
Proof.
  intros Hop Hs. rewrite (process_eq d tsk s Hs).
  pose proof (switch_op_quiet d tsk Hop (entry d tsk s)) as Hq.
  destruct (switch_op d tsk (entry d tsk s)) as [[] f|p] eqn:Hsw.
  - destruct Hq as (effs & Hlog & Hcalm). simpl in Hlog.
    apply switch_op_frame in Hsw. destruct Hsw as (Hp & Hsto & _ & _).
    split.
    + exists (effs ++ persist_effects f ++ trace_effects d tsk (f_s f)).
      unfold iteration_log. rewrite Hlog. split.
      * simpl. by rewrite <- !app_assoc.
      * rewrite !forallb_app, (calm_no_mutex _ Hcalm).
        unfold persist_effects, trace_effects. by repeat case_match.
    + exists (f_s f). split; [apply lookup_insert_eq|].
      rewrite persisted_iteration_log, persist_failures_iteration_log.
      change (f_log f = [Lock (t_shard tsk)] ++ effs) in Hlog. rewrite Hlog.
      rewrite persisted_app, persist_failures_app.
      rewrite (calm_persisted _ Hcalm), (calm_persist_failures _ Hcalm).
      rewrite Hp. simpl.
      destruct (skips_persist d tsk s) eqn:Hskip; simpl; [done|].
      assert (t_op tsk ≠ OpShardDestroy) as Hnd.
      { intros Heq. unfold skips_persist in Hskip.
        by rewrite bool_decide_eq_true_2 in Hskip. }
      rewrite decide_False in Hsto by done.
      unfold iteration_store, persist_store. simpl. by rewrite Hp, Hsto.
  - split; [done|]. destruct (t_waiter tsk) as [w|] eqn:Hw; [|done].
    destruct (switch_op_total d tsk (entry d tsk s) w Hop Hw) as [f' Hf'].
    congruence.
Qed.

(** *** consumeNext *)

Lemma select_Some (p : nat) d (cases : list Case) (r : Consumed) :
  select_ p d cases = Some r → ∃ c, c ∈ cases ∧ attempt d c = Some r.
Proof.
  unfold select_. intros Hr%list_elem_of_lookup_2.
  apply list_elem_of_omap in Hr. destruct Hr as (c & Hc & Ha). eauto.
Qed.

Lemma select_None (p : nat) d (cases : list Case) :
  select_ p d cases = None → ∀ c, c ∈ cases → attempt d c = None.
Proof.
  unfold select_. intros Hn c Hc.
  destruct (attempt d c) as [r|] eqn:Ha; [|done]. exfalso.
  assert (r ∈ omap (attempt d) cases) as Hr
    by (apply list_elem_of_omap; eauto).
  apply lookup_ge_None in Hn.
  destruct (omap (attempt d) cases) as [|x l]; [by apply elem_of_nil in Hr|].
  pose proof (Nat.mod_upper_bound p (length (x :: l))) as Hlt.
  simpl in *. lia.
Qed.

(** C5: consumeNext first tries the internal channel and the shutdown
    signal without blocking and returns whichever is ready (either, when
    both are); only when neither is ready does it select over the
    external channel, the completion channel and shutdown.  So while a
    task waits in the internal channel no external or completion task is
    consumed, and the shutdown case always returns the error of the
    context. *)
Theorem consumeNext_internal_first (p1 p2 : nat) (a : Arrival) d :
  match d_internalCh d, d_ctx_Err d with
  | tsk :: q, None => consumeNext p1 p2 a d = Got tsk (with_internalCh q d)
  | tsk :: q, Some e =>
      consumeNext p1 p2 a d = Got tsk (with_internalCh q d)
      ∨ consumeNext p1 p2 a d = Failed e
  | [], Some e => consumeNext p1 p2 a d = Failed e
  | [], None =>
      let d2 := arrive a d in
      match consumeNext p1 p2 a d with
      | Got tsk d' =>
          (∃ q, d_externalCh d2 = tsk :: q ∧ d' = with_externalCh q d2)
          ∨ (∃ q, d_completionCh d2 = tsk :: q ∧ d' = with_completionCh q d2)
      | Failed e => d_ctx_Err d2 = Some e
      | Blocks d' =>
          d' = d2 ∧ d_externalCh d2 = [] ∧ d_completionCh d2 = []
          ∧ d_ctx_Err d2 = None
      end
  end.
Proof.
  unfold consumeNext.
  destruct (d_internalCh d) as [|tsk q] eqn:Hi;
    destruct (d_ctx_Err d) as [e|] eqn:He.
  - destruct (select_ p1 d [recv_internalCh; ctx_Done]) as [r|] eqn:Hsel.
    + apply select_Some in Hsel as (c & Hc & Ha).
      apply elem_of_cons in Hc as [->|Hc]; simpl in Ha; [by rewrite Hi in Ha|].
      apply list_elem_of_singleton in Hc as ->. simpl in Ha.
      rewrite He in Ha. simpl in Ha. by simplify_eq.
    + pose proof (select_None _ _ _ Hsel ctx_Done) as Hn. simpl in Hn.
      rewrite He in Hn. discriminate Hn. set_solver.
  - destruct (select_ p1 d [recv_internalCh; ctx_Done]) as [r|] eqn:Hsel.
    { apply select_Some in Hsel as (c & Hc & Ha).
      apply elem_of_cons in Hc as [->|Hc]; simpl in Ha; [by rewrite Hi in Ha|].
      apply list_elem_of_singleton in Hc as ->. simpl in Ha.
      by rewrite He in Ha. }
    cbv zeta. remember (arrive a d) as d2 eqn:Hd2. clear Hd2.
    destruct (select_ p2 d2 [recv_externalCh; recv_completionCh; ctx_Done])
      as [r|] eqn:Hsel2.
    + apply select_Some in Hsel2 as (c & Hc & Ha).
      rewrite !elem_of_cons, elem_of_nil in Hc.
      destruct Hc as [->|[->|[->|[]]]]; simpl in Ha.
      * destruct (d_externalCh d2) as [|t q'] eqn:Hx; [done|].
        simplify_eq. left. eauto.
      * destruct (d_completionCh d2) as [|t q'] eqn:Hx; [done|].
        simplify_eq. right. eauto.
      * destruct (d_ctx_Err d2) as [e|] eqn:Hx; [|done]. simpl in Ha.
        by simplify_eq.
    + pose proof (select_None _ _ _ Hsel2) as Hn.
      pose proof (Hn recv_externalCh ltac:(set_solver)) as H1.
      pose proof (Hn recv_completionCh ltac:(set_solver)) as H2.
      pose proof (Hn ctx_Done ltac:(set_solver)) as H3.
      simpl in H1, H2, H3.
      destruct (d_externalCh d2); [|done].
      destruct (d_completionCh d2); [|done].
      by destruct (d_ctx_Err d2).
  - destruct (select_ p1 d [recv_internalCh; ctx_Done]) as [r|] eqn:Hsel.
    + apply select_Some in Hsel as (c & Hc & Ha).
      apply elem_of_cons in Hc as [->|Hc]; simpl in Ha.
      * rewrite Hi in Ha. left. by simplify_eq.
      * apply list_elem_of_singleton in Hc as ->. simpl in Ha.
        rewrite He in Ha. right. simpl in Ha. by simplify_eq.
    + pose proof (select_None _ _ _ Hsel ctx_Done) as Hn. simpl in Hn.
      rewrite He in Hn. discriminate Hn. set_solver.
  - destruct (select_ p1 d [recv_internalCh; ctx_Done]) as [r|] eqn:Hsel.
    + apply select_Some in Hsel as (c & Hc & Ha).
      apply elem_of_cons in Hc as [->|Hc]; simpl in Ha.
      * rewrite Hi in Ha. by simplify_eq.
      * apply list_elem_of_singleton in Hc as ->. simpl in Ha.
        by rewrite He in Ha.
    + pose proof (select_None _ _ _ Hsel recv_internalCh) as Hn. simpl in Hn.
      rewrite Hi in Hn. discriminate Hn. set_solver.
Qed.

End Properties.

(** * The loop on the in-memory store *)

(** ** The invariant between err and state *)






(** Why the error of an OpShardFail matters: a task that carried none
    would leave the record Errored with a nil err. *)
Lemma Fail_with_nil_error_breaks_err_iff_errored :
  err_iff_errored (shardA ShardStateAvailable None)
  ∧ released (storeA (shardA ShardStateAvailable None) [])
             (mk_task OpShardFail 0%nat None None)
    = Some (shardA ShardStateErrored None)
  ∧ ¬ err_iff_errored (shardA ShardStateErrored None).
Proof.
  split; [split; [intros H; by destruct H | discriminate]|].
  split; [vm_compute; reflexivity|].
  intros [_ H]. by apply H.
Qed.

(** OpShardAcquire takes state and err from the reload of the persisted
    fields: when the store is not in step with the record, here because
    it holds it as Errored, the record goes from Available to Errored, and
    the acquirer is told so. *)
Lemma Acquire_reloads_state_and_err :
  ∃ d' log,
    process staleA (mk_task OpShardAcquire 0%nat (Some w1) None) = Continue d' log
    ∧ d_shards d' !! 0%nat = Some (shardA ShardStateErrored (Some E0))
    ∧ dispatched log
      = [(Some w1,
          mk_ShardResult "A"
            (Some (fmt_wrapError "shard is in errored state; err: %w" [] E0)))].
Proof.
  eexists _, _. split; [vm_compute; reflexivity|]. vm_compute. done.
Qed.


Lemma MakeAvailable_transition_witness :
  t_op (mk_task OpShardMakeAvailable 0%nat None None) = OpShardMakeAvailable
  ∧ d_shards (storeA (busyA ShardStateErrored (Some E0)) []) !! 0%nat
    = Some (busyA ShardStateErrored (Some E0))
  ∧ ∃ d' log s',
      process (storeA (busyA ShardStateErrored (Some E0)) [])
              (mk_task OpShardMakeAvailable 0%nat None None)
      = Continue d' log
      ∧ d_shards d' !! 0%nat = Some s'
      ∧ s_state s' = ShardStateAvailable ∧ s_err s' = None
      ∧ s_wRegister s' = None ∧ s_wRecover s' = None ∧ s_wAcquire s' = []
      ∧ dispatched log
        = [(Some w1, mk_ShardResult "A" None); (Some w2, mk_ShardResult "A" None)]
      ∧ acquire_workers log
        = [(ctx_of 3, w3, 0%nat, 7%nat); (ctx_of 1, w1, 0%nat, 7%nat)].
Proof.
  split; [reflexivity|]. split; [vm_compute; reflexivity|].
  apply (MakeAvailable_transition
           (storeA (busyA ShardStateErrored (Some E0)) [])
           (mk_task OpShardMakeAvailable 0%nat None None)
           (busyA ShardStateErrored (Some E0)));
    vm_compute; reflexivity.
Defined.

Lemma Fail_transition_witness :
  t_op (mk_task OpShardFail 0%nat None (Some E0)) = OpShardFail
  ∧ d_shards (storeA (busyA ShardStateNew None) []) !! 0%nat
    = Some (busyA ShardStateNew None)
  ∧ ∃ d' log s',
      process (storeA (busyA ShardStateNew None) [])
              (mk_task OpShardFail 0%nat None (Some E0))
      = Continue d' log
      ∧ d_shards d' !! 0%nat = Some s'
      ∧ s_wRegister s' = None ∧ s_wRecover s' = None ∧ s_wAcquire s' = []
      ∧ dispatched log
        = [(Some w1, mk_ShardResult "A"
                       (Some (fmt_wrapError "failed to register shard: %w" [] E0)));
           (Some w2, mk_ShardResult "A"
                       (Some (fmt_wrapError "failed to recover shard: %w" [] E0)));
           (Some w3, mk_ShardResult "A"
                       (Some (fmt_wrapError "failed to acquire shard: %w" [] E0)));
           (Some w1, mk_ShardResult "A"
                       (Some (fmt_wrapError "failed to acquire shard: %w" [] E0)))].
Proof.
  split; [reflexivity|]. split; [vm_compute; reflexivity|].
  apply (Fail_transition
           (storeA (busyA ShardStateNew None) [])
           (mk_task OpShardFail 0%nat None (Some E0))
           (busyA ShardStateNew None));
    vm_compute; reflexivity.
Defined.

Lemma Acquire_recoverOnNextAcquire_witness :
  reload_error (storeA erroredA []) erroredA = None
  ∧ s_state (reloaded (storeA erroredA []) erroredA) = ShardStateErrored
  ∧ s_recoverOnNextAcquire (reloaded (storeA erroredA []) erroredA) = true
  ∧ ∃ d' log s',
      process (storeA erroredA []) (mk_task OpShardAcquire 0%nat (Some w1) None)
      = Continue d' log
      ∧ d_shards d' !! 0%nat = Some s'
      ∧ s_wAcquire s' = [w2; w1]
      ∧ s_recoverOnNextAcquire s' = false
      ∧ s_state s' = ShardStateErrored
      ∧ queued log
        = [mk_task OpShardRecover 0%nat (Some (mk_waiter (ctx_of 0) None)) None]
      ∧ d_internalCh d'
        = [mk_task OpShardRecover 0%nat (Some (mk_waiter (ctx_of 0) None)) None]
      ∧ dispatched log = [].
Proof.
  split; [vm_compute; reflexivity|]. split; [vm_compute; reflexivity|].
  split; [vm_compute; reflexivity|].
  pose proof (Acquire_recoverOnNextAcquire (storeA erroredA [])
                (mk_task OpShardAcquire 0%nat (Some w1) None) erroredA w1
                eq_refl
                ltac:(vm_compute; reflexivity)
                eq_refl
                ltac:(vm_compute; reflexivity)
                ltac:(vm_compute; reflexivity)
                ltac:(vm_compute; reflexivity)) as H.
  vm_compute in H. vm_compute. exact H.
Defined.

(** C7 (as stated, refuted): the shard is Errored with
    recoverOnNextAcquire set, and nothing is persisted under its key: the
    reload of lines 125-132 fails before the state is looked at, the
    acquirer is replied the error, the flag stays set, the acquirer is
    not parked and no OpShardRecover is queued. *)
Lemma Acquire_errored_reload_fails :
  s_state erroredA = ShardStateErrored
  ∧ s_recoverOnNextAcquire erroredA = true
  ∧ ∃ d' log,
      process (unpersistedA erroredA) (mk_task OpShardAcquire 0%nat (Some w1) None)
      = Continue d' log
      ∧ d_shards d' !! 0%nat = Some erroredA
      ∧ s_wAcquire erroredA = [w2]
      ∧ queued log = []
      ∧ d_internalCh d' = []
      ∧ dispatched log
        = [(Some w1,
            mk_ShardResult "A"
              (Some (fmt_wrapError "could not acquire shard: %w" []
                       ds_ErrNotFound)))].
Proof.
  split; [reflexivity|]. split; [reflexivity|].
  eexists _, _. split; [vm_compute; reflexivity|]. vm_compute. done.
Qed.

(** StatFullIndex fails for "A" while saying that the index exists: the
    initializer is started all the same for a task with a waiter, and a
    task without one dies on tsk.ctx; with the index there and no error,
    the task without a waiter is short-circuited like any other. *)
Lemma Initialize_stat_witness :
  StatFullIndex {[ "A" := (mk_Stat true, Some E0) ]} "A" = (mk_Stat true, Some E0)
  ∧ ∃ d' log,
      process (store_of {[ "A" := (mk_Stat true, Some E0) ]}
                 (shardA ShardStateNew None) [])
              (mk_task OpShardInitialize 0%nat (Some w1) None)
      = Continue d' log
      ∧ d_shards d' !! 0%nat = Some (shardA ShardStateNew None)
      ∧ dispatched log = []
      ∧ failure_notifications log = []
      ∧ initialize_workers log = [(ctx_of 1, 0%nat, 7%nat)]
      ∧ queued log = [].
Proof.
  split; [vm_compute; reflexivity|].
  pose proof (Initialize_stat
                (store_of {[ "A" := (mk_Stat true, Some E0) ]}
                   (shardA ShardStateNew None) [])
                (mk_task OpShardInitialize 0%nat (Some w1) None)
                (shardA ShardStateNew None)
                eq_refl
                ltac:(vm_compute; reflexivity)) as H.
  vm_compute in H. vm_compute. exact H.
Defined.

(** C9 (code bug): an OpShardRegister without a waiter, as a restart
    sends it (line 75), on a shard that is New and not lazy: the loop
    queues the OpShardInitialize with the nil waiter (line 85).  When the
    index is there and StatFullIndex returns no error the shard is made
    Available.  When StatFullIndex fails the registration with a waiter
    gets its initializer worker, but for the one without a waiter, and
    likewise when there is no index, the loop does not start the worker:
    it dies on tsk.ctx at line 95. *)
Lemma Initialize_without_waiter :
  (∃ d' log,
     control [turn0; turn0; turn0]
       (store_of indexedA (shardA ShardStateNew None)
          [mk_task OpShardRegister 0%nat None None]) []
     = Running d' log
     ∧ d_shards d' !! 0%nat = Some (shardA ShardStateAvailable None))
  ∧ (∃ d' log,
       control [turn0; turn0; turn0]
         (store_of {[ "A" := (mk_Stat true, Some E0) ]} (shardA ShardStateNew None)
            [mk_task OpShardRegister 0%nat (Some w1) None]) []
       = Running d' log
       ∧ initialize_workers log = [(ctx_of 1, 0%nat, 7%nat)])
  ∧ (∃ log,
       control [turn0; turn0; turn0]
         (store_of {[ "A" := (mk_Stat true, Some E0) ]} (shardA ShardStateNew None)
            [mk_task OpShardRegister 0%nat None None]) []
       = Crashed nil_pointer_dereference log
       ∧ queued log = [mk_task OpShardInitialize 0%nat None None]
       ∧ initialize_workers log = [])
  ∧ (∃ log,
       control [turn0; turn0; turn0]
         (storeA (shardA ShardStateNew None)
            [mk_task OpShardRegister 0%nat None None]) []
       = Crashed nil_pointer_dereference log
       ∧ queued log = [mk_task OpShardInitialize 0%nat None None]
       ∧ initialize_workers log = []).
Proof.
  repeat split.
  - eexists _, _. split; [vm_compute; reflexivity|]. vm_compute. done.
  - eexists _, _. split; [vm_compute; reflexivity|]. vm_compute. done.
  - eexists. split; [vm_compute; reflexivity|]. vm_compute. done.
  - eexists. split; [vm_compute; reflexivity|]. vm_compute. done.
Qed.

Lemma default_branch_unreachable_witness :
  OpShardRecover ∈ defined_ops
  ∧ process (storeA erroredA []) (mk_task OpShardRecover 0%nat None None)
    ≠ Panics (unrecognized_shard_operation OpShardRecover).
Proof.
  assert (OpShardRecover ∈ defined_ops) as Hop
    by (apply defined_ops_cases; do 6 right; reflexivity).
  split; [exact Hop|].
  exact (default_branch_unreachable (storeA erroredA [])
           (mk_task OpShardRecover 0%nat None None) OpShardRecover Hop).
Defined.

Lemma persist_after_transition_witness :
  ∃ log,
    process (storeA (shardA ShardStateNew None) [])
            (mk_task OpShardRegister 0%nat (Some w1) None)
    = Continue
        (mk_DAGStore (ctx_of 0) None
           {[ "A" := set_wRegister (Some w1) (shardA ShardStateNew None) ]} ∅
           (Some 8%nat) (Some 9%nat)
           [mk_task OpShardInitialize 0%nat (Some w1) None] [] []
           {[ 0%nat := set_wRegister (Some w1) (shardA ShardStateNew None) ]})
        log
    ∧ under_lock 0%nat log
    ∧ persisted log = [set_wRegister (Some w1) (shardA ShardStateNew None)]
    ∧ persist_failures log = [].
Proof.
  assert (OpShardRegister ∈ defined_ops) as Hop
    by (apply defined_ops_cases; by left).
  pose proof (persist_after_transition
                (storeA (shardA ShardStateNew None) [])
                (mk_task OpShardRegister 0%nat (Some w1) None)
                (shardA ShardStateNew None) Hop eq_refl) as H.
  destruct (process (storeA (shardA ShardStateNew None) [])
              (mk_task OpShardRegister 0%nat (Some w1) None))
    as [d' log|p] eqn:Hp.
  - vm_compute in Hp. injection Hp as <- <-.
    destruct H as (Hlock & s' & Hs' & Hw).
    vm_compute in Hs'. injection Hs' as <-.
    eexists. split; [vm_compute; reflexivity|].
    split; [exact Hlock|]. vm_compute in Hw. destruct Hw as (Hw1 & _ & Hw3).
    split; [exact Hw1 | exact Hw3].
  - vm_compute in Hp. discriminate Hp.
Defined.

(** ** A second OpShardRecover *)

Section Recover.

Context {Store Indices : Type} `{!Externals Store Indices}.

(** X13: an OpShardRecover admitted on an Errored shard parks its waiter
    over whatever wRecover held, starts the initializer under the context
    of the task and replies nothing; the shard stays Errored. *)
Lemma Recover_parks_over d (tsk : task) (s : Shard) (w : waiter) :
  t_op tsk = OpShardRecover →
  d_shards d !! t_shard tsk = Some s →
  t_waiter tsk = Some w →
  reload_error d s = None →
  s_state (reloaded d s) = ShardStateErrored →
  ∃ (d' : @DAGStore Store Indices) log s',
    process d tsk = Continue d' log
    ∧ d_shards d' !! t_shard tsk = Some s'
    ∧ s_wRecover s' = Some w
    ∧ s_state s' = ShardStateErrored
    ∧ dispatched log = []
    ∧ initialize_workers log
      = [(w_ctx w, t_shard tsk, s_mount (reloaded d s))].
Proof.
  intros Hop Hs Hw Herr Hst. rewrite (process_eq d tsk s Hs).
  unfold switch_op. rewrite Hop. repeat case_decide; try done.
  unfold case_OpShardRecover, reload_error, reloaded, entry, t_ctx in *.
  cbv [mbind M_bind mret M_ret update_s get_s get_store set_persist deref].
  simpl. destruct (shardFromPersistentState (d_store d) s) as [err s1].
  simpl in *. subst err. rewrite decide_False by (by intros ?).
  rewrite Hw. unfold emit. simpl.
  match goal with |- context [iteration_store _ _ ?x] => set (f' := x) end.
  exists (iteration_store d tsk f'), (iteration_log d tsk f'), (f_s f').
  split; [done|]. split; [apply lookup_insert_eq|].
  rewrite dispatched_iteration_log, initialize_workers_iteration_log.
  by subst f'.
Qed.

End Recover.

(** C2 (the code drops a waiter): shard "A" is Errored; two callers ask
    for its recovery, with waiters w1 and w2, before the worker of the
    first reports; then that worker reports the shard available.  The
    second OpShardRecover has replaced w1 in wRecover: the only result
    ever handed to the dispatcher is the one for w2, and no waiter is
    parked any more. *)
Lemma second_Recover_drops_first_waiter :
  ∃ d log,
    control [turn0; turn0; turn_available]
      (storeA (shardA ShardStateErrored (Some E0))
         [mk_task OpShardRecover 0%nat (Some w1) None;
          mk_task OpShardRecover 0%nat (Some w2) None]) []
    = Running d log
    ∧ dispatched log = [(Some w2, mk_ShardResult "A" None)]
    ∧ initialize_workers log = [(ctx_of 1, 0%nat, 7%nat); (ctx_of 2, 0%nat, 7%nat)]
    ∧ d_shards d !! 0%nat = Some (shardA ShardStateAvailable None)
    ∧ d_internalCh d = [] ∧ d_externalCh d = [] ∧ d_completionCh d = [].
Proof.
  eexists _, _. split; [vm_compute; reflexivity|]. vm_compute. done.
Qed.

(** C6 (the code sends no reply): an OpShardDestroy whose deletion
    succeeds hands nothing to the dispatcher, whether the key was in the
    metadata store (Delete returns nil) or not (Delete returns
    ds.ErrNotFound): the waiter w1 of the caller gets no result. *)
Lemma Destroy_success_sends_no_reply :
  (store_Delete (d_store (storeA (shardA ShardStateAvailable None) [])) "A"
   = (None, ∅)
   ∧ ∃ d' log,
       process (storeA (shardA ShardStateAvailable None) [])
               (mk_task OpShardDestroy 0%nat (Some w1) None)
       = Continue d' log
       ∧ d_store d' = ∅
       ∧ dispatched log = [])
  ∧ (store_Delete (d_store (unpersistedA (shardA ShardStateNew None))) "A"
     = (Some ds_ErrNotFound, ∅)
     ∧ ∃ d' log,
         process (unpersistedA (shardA ShardStateNew None))
                 (mk_task OpShardDestroy 0%nat (Some w1) None)
         = Continue d' log
         ∧ dispatched log = []).
Proof.
  split; (split; [vm_compute; reflexivity|]).
  - eexists _, _. split; [vm_compute; reflexivity|]. vm_compute. done.
  - eexists _, _. split; [vm_compute; reflexivity|]. vm_compute. done.
Qed.

(** * The rest of the loop *)

(** Unfolds the monad of an iteration. *)
Ltac unfold_monad :=
  cbv [mbind M_bind mret M_ret update_s get_s get_store put_store
       set_persist get_persist panic deref emit];
  simpl.

(** Names the frame the switch leaves and offers the iteration built on
    it. *)
Ltac iteration_of f' :=
  match goal with
  | |- context [Ok () ?x] => set (f' := x)
  | |- context [iteration_store _ _ ?x] => set (f' := x)
  end.

Section Rest.

Context {Store Indices : Type} `{!Externals Store Indices}.
Implicit Types (d : @DAGStore Store Indices) (f : @Frame Store).
Implicit Types (tsk : task) (s : Shard) (log : list Effect) (w : waiter).

(** *** OpType *)

Lemma OpType_String_Some (o : OpType) (name : string) :
  OpType_String o = Some name → o ∈ defined_ops.
Proof.
  intros H. apply defined_ops_cases. unfold OpType_String in H.
  destruct (Z.ltb_spec o 0) as [Hlt|Hge]; [done|].
  apply lookup_lt_Some in H. simpl in H.
  unfold OpShardRegister, OpShardInitialize, OpShardMakeAvailable,
    OpShardDestroy, OpShardAcquire, OpShardFail, OpShardRecover.
  lia.
Qed.

(** X2: two operations with the same name are the same operation. *)
Theorem OpType_String_inj (o1 o2 : OpType) (name : string) :
  OpType_String o1 = Some name →
  OpType_String o2 = Some name →
  o1 = o2.
Proof.
  intros H1 H2.
  pose proof (OpType_String_Some o1 name H1) as D1.
  pose proof (OpType_String_Some o2 name H2) as D2.
  apply defined_ops_cases in D1, D2.
  destruct D1 as [->|[->|[->|[->|[->|[->| ->]]]]]];
    destruct D2 as [->|[->|[->|[->|[->|[->| ->]]]]]];
    vm_compute in H1, H2; congruence.
Qed.

(** *** No crash on a well-formed task *)

(** X4: a task with one of the seven operations, a shard and a waiter
    never makes the loop panic: no case dereferences a nil pointer, and
    the default branch is not taken. *)
Theorem process_never_panics d tsk s w (p : Panic) :
  t_op tsk ∈ defined_ops →
  d_shards d !! t_shard tsk = Some s →
  t_waiter tsk = Some w →
  process d tsk ≠ Panics p.
Proof.
  intros Hop Hs Hw. rewrite (process_eq d tsk s Hs).
  destruct (switch_op_total d tsk (entry d tsk s) w Hop Hw) as [f' Hf'].
  by rewrite Hf'.
Qed.

(** *** OpShardRegister *)

(** X5: OpShardRegister on a shard that is not New gives the registrant no
    reply and parks nothing; it queues an OpShardFail carrying
    ErrShardInitializationFailed, and once that task is processed the
    shard is Errored with that error, whatever state it was in. *)
Theorem Register_not_new_fails_shard d tsk s :
  t_op tsk = OpShardRegister →
  d_shards d !! t_shard tsk = Some s →
  s_state s ≠ ShardStateNew →
  ∃ d1 log1 d2 log2 s2,
    process d tsk = Continue d1 log1
    ∧ d_shards d1 !! t_shard tsk = Some s
    ∧ dispatched log1 = []
    ∧ d_internalCh d1 = d_internalCh d ++ [not_new_Fail (t_shard tsk) (s_state s)]
    ∧ process d1 (not_new_Fail (t_shard tsk) (s_state s)) = Continue d2 log2
    ∧ d_shards d2 !! t_shard tsk = Some s2
    ∧ s_state s2 = ShardStateErrored
    ∧ s_err s2 = Some (not_new_error (s_state s))
    ∧ errors_Is_ErrShardInitializationFailed (not_new_error (s_state s)) = true.
Proof.
  intros Hop Hs Hst. rewrite (process_eq d tsk s Hs).
  rewrite (switch_OpShardRegister d tsk Hop).
  unfold case_OpShardRegister, entry. unfold_monad.
  rewrite decide_True by done. simpl.
  iteration_of f1.
  assert (d_shards (iteration_store d tsk f1) !! t_shard tsk = Some s) as Hs1
    by apply lookup_insert_eq.
  exists (iteration_store d tsk f1), (iteration_log d tsk f1).
  pose proof (process_eq (iteration_store d tsk f1)
                (not_new_Fail (t_shard tsk) (s_state s)) s Hs1) as Hp2.
  rewrite (switch_OpShardFail (iteration_store d tsk f1)
             (not_new_Fail (t_shard tsk) (s_state s)) eq_refl),
    case_OpShardFail_eq in Hp2.
  cbv zeta in Hp2.
  match type of Hp2 with
  | context [Ok () ?x] => set (f2 := x) in *
  end.
  cbv beta iota in Hp2. rewrite Hp2. eexists _, _, (f_s f2). split; [done|]. split; [done|].
  split; [by rewrite dispatched_iteration_log|].
  split.
  { change (d_internalCh (iteration_store d tsk f1))
      with (d_internalCh d ++ queued (iteration_log d tsk f1)).
    by rewrite queued_iteration_log. }
  split; [done|]. split; [apply lookup_insert_eq|]. done.
Qed.

(** X6: OpShardRegister on a New shard registered with lazy
    initialization replies success to the registrant at once, if there is
    one; the record is left as it is and no initialization is queued or
    started. *)
Theorem Register_lazy d tsk s :
  t_op tsk = OpShardRegister →
  d_shards d !! t_shard tsk = Some s →
  s_state s = ShardStateNew →
  s_lazy s = true →
  ∃ d' log,
    process d tsk = Continue d' log
    ∧ d_shards d' !! t_shard tsk = Some s
    ∧ dispatched log = reply_to (t_waiter tsk) (mk_ShardResult (s_key s) None)
    ∧ queued log = []
    ∧ initialize_workers log = []
    ∧ persisted log = [s].
Proof.
  intros Hop Hs Hst Hlazy. rewrite (process_eq d tsk s Hs).
  rewrite (switch_OpShardRegister d tsk Hop).
  unfold case_OpShardRegister, entry. unfold_monad.
  rewrite decide_False by (by intros ?). rewrite Hlazy.
  destruct (t_waiter tsk) as [w|]; simpl; iteration_of f'.
  all: exists (iteration_store d tsk f'), (iteration_log d tsk f').
  all: split; [done|]; split; [apply lookup_insert_eq|].
  all: rewrite dispatched_iteration_log, queued_iteration_log,
         initialize_workers_iteration_log, persisted_iteration_log.
  all: by subst f'.
Qed.

(** *** OpShardAcquire *)

(** Runs an OpShardAcquire or OpShardRecover up to the result of the
    reload. *)
Ltac reload_as err r Hr :=
  unfold reload_error, reloaded, entry, t_ctx, t_outCh in *; unfold_monad;
  match goal with
  | |- context [shardFromPersistentState ?st ?s] =>
      destruct (shardFromPersistentState st s) as [err r] eqn:Hr
  end;
  simpl in *.

(** The frame is named, the iteration offered, and the readings of its
    log reduced to those of the log of the switch. *)
Ltac finish_iteration d tsk :=
  let f' := fresh "f'" in
  iteration_of f';
  exists (iteration_store d tsk f'), (iteration_log d tsk f');
  split; [done|]; split; [apply lookup_insert_eq|];
  rewrite ?dispatched_iteration_log, ?queued_iteration_log,
    ?initialize_workers_iteration_log, ?acquire_workers_iteration_log,
    ?persisted_iteration_log, ?failure_notifications_iteration_log;
  subst f'; simpl.

(** X8: an OpShardAcquire that finds the shard Available starts one
    acquire worker, with the context and the waiter of the acquirer; the
    loop itself replies nothing, parks nothing and queues nothing. *)
Theorem Acquire_available d tsk s w :
  t_op tsk = OpShardAcquire →
  d_shards d !! t_shard tsk = Some s →
  t_waiter tsk = Some w →
  reload_error d s = None →
  s_state (reloaded d s) = ShardStateAvailable →
  ∃ d' log,
    process d tsk = Continue d' log
    ∧ d_shards d' !! t_shard tsk = Some (reloaded d s)
    ∧ acquire_workers log
      = [(w_ctx w, w, t_shard tsk, s_mount (reloaded d s))]
    ∧ dispatched log = []
    ∧ queued log = []
    ∧ persisted log = [reloaded d s].
Proof.
  intros Hop Hs Hw Herr Hst. destruct w as [wc wo].
  rewrite (process_eq d tsk s Hs).
  rewrite (switch_OpShardAcquire d tsk Hop). unfold case_OpShardAcquire.
  reload_as err r Hr. subst err. rewrite Hw, Hst. simpl.
  finish_iteration d tsk. done.
Qed.

(** X9: an OpShardAcquire that finds the shard neither Errored nor
    Available parks the acquirer at the end of wAcquire and replies
    nothing; when the shard is New it also queues an OpShardInitialize
    whose waiter has the background context and the channel of the
    acquirer, and in any other state it queues nothing. *)
Theorem Acquire_waits d tsk s w :
  t_op tsk = OpShardAcquire →
  d_shards d !! t_shard tsk = Some s →
  t_waiter tsk = Some w →
  reload_error d s = None →
  s_state (reloaded d s) ≠ ShardStateErrored →
  s_state (reloaded d s) ≠ ShardStateAvailable →
  ∃ d' log,
    process d tsk = Continue d' log
    ∧ d_shards d' !! t_shard tsk
      = Some (set_wAcquire (s_wAcquire (reloaded d s) ++ [w]) (reloaded d s))
    ∧ dispatched log = []
    ∧ acquire_workers log = []
    ∧ queued log
      = if decide (s_state (reloaded d s) = ShardStateNew)
        then [mk_task OpShardInitialize (t_shard tsk)
                (Some (mk_waiter context_Background (w_outCh w))) None]
        else [].
Proof.
  intros Hop Hs Hw Herr Hne Hna. destruct w as [wc wo].
  rewrite (process_eq d tsk s Hs).
  rewrite (switch_OpShardAcquire d tsk Hop). unfold case_OpShardAcquire.
  reload_as err r Hr. subst err. rewrite Hw. simpl.
  rewrite (decide_False (P := s_state r = ShardStateErrored)) by done.
  rewrite (decide_True (P := s_state r ≠ ShardStateAvailable)) by done.
  simpl. destruct (decide (s_state r = ShardStateNew)) as [Hn|Hn]; simpl;
    finish_iteration d tsk; done.
Qed.

(** X10: an OpShardAcquire that finds the shard Errored while no recovery
    was asked for replies at once to the acquirer, with the error of the
    shard wrapped; it parks nothing, queues no recovery and starts no
    worker, and the record stays Errored. *)
Theorem Acquire_errored_replies d tsk s w :
  t_op tsk = OpShardAcquire →
  d_shards d !! t_shard tsk = Some s →
  t_waiter tsk = Some w →
  reload_error d s = None →
  s_state (reloaded d s) = ShardStateErrored →
  s_recoverOnNextAcquire (reloaded d s) = false →
  ∃ d' log,
    process d tsk = Continue d' log
    ∧ d_shards d' !! t_shard tsk = Some (reloaded d s)
    ∧ dispatched log
      = [(Some w,
          mk_ShardResult (s_key (reloaded d s))
            (Some (fmt_Errorf "shard is in errored state; err: %w" []
                     (s_err (reloaded d s)))))]
    ∧ queued log = []
    ∧ acquire_workers log = []
    ∧ initialize_workers log = [].
Proof.
  intros Hop Hs Hw Herr Hst Hflag. destruct w as [wc wo].
  rewrite (process_eq d tsk s Hs).
  rewrite (switch_OpShardAcquire d tsk Hop). unfold case_OpShardAcquire.
  reload_as err r Hr. subst err. rewrite Hw, Hst, Hflag. simpl.
  finish_iteration d tsk. done.
Qed.

(** *** When the reload fails *)

(** X11: when the reload of an OpShardAcquire or OpShardRecover fails, the
    waiter of the task is sent the error of the reload, wrapped under
    "could not acquire shard" or "could not recover shard"; nothing is
    parked, queued or started, and neither the record nor the metadata
    store is written. *)
Theorem reload_failure_replies d tsk s (e : error) :
  t_op tsk = OpShardAcquire ∨ t_op tsk = OpShardRecover →
  d_shards d !! t_shard tsk = Some s →
  reload_error d s = Some e →
  ∃ d' log,
    process d tsk = Continue d' log
    ∧ d_shards d' !! t_shard tsk = Some (reloaded d s)
    ∧ dispatched log
      = [(t_waiter tsk,
          mk_ShardResult (s_key (reloaded d s))
            (Some (fmt_wrapError
                     (if decide (t_op tsk = OpShardAcquire)
                      then "could not acquire shard: %w"
                      else "could not recover shard: %w") [] e)))]
    ∧ queued log = []
    ∧ acquire_workers log = []
    ∧ initialize_workers log = []
    ∧ persisted log = []
    ∧ d_store d' = d_store d.
Proof.
  intros [Hop|Hop] Hs Herr; rewrite (process_eq d tsk s Hs).
  - rewrite (switch_OpShardAcquire d tsk Hop). unfold case_OpShardAcquire.
    rewrite Hop. reload_as err r Hr. subst err.
    finish_iteration d tsk. done.
  - rewrite (switch_OpShardRecover d tsk Hop). unfold case_OpShardRecover.
    rewrite Hop. reload_as err r Hr. subst err.
    finish_iteration d tsk. done.
Qed.

(** *** OpShardRecover *)

(** X12: an OpShardRecover on a shard that is not Errored is refused: the
    waiter of the task is sent an error naming the state, wRecover is left
    as it was and no initializer is started. *)
Theorem Recover_refused d tsk s :
  t_op tsk = OpShardRecover →
  d_shards d !! t_shard tsk = Some s →
  reload_error d s = None →
  s_state (reloaded d s) ≠ ShardStateErrored →
  ∃ d' log,
    process d tsk = Continue d' log
    ∧ d_shards d' !! t_shard tsk = Some (reloaded d s)
    ∧ dispatched log
      = [(t_waiter tsk,
          mk_ShardResult (s_key (reloaded d s))
            (Some (fmt_errorString
                     "refused to recover shard in state other than errored; current state: %d"
                     [ArgState (s_state (reloaded d s))])))]
    ∧ initialize_workers log = []
    ∧ queued log = []
    ∧ persisted log = [reloaded d s].
Proof.
  intros Hop Hs Herr Hst. rewrite (process_eq d tsk s Hs).
  rewrite (switch_OpShardRecover d tsk Hop). unfold case_OpShardRecover.
  reload_as err r Hr. subst err.
  rewrite decide_True by done. simpl.
  finish_iteration d tsk. done.
Qed.

(** *** OpShardFail: the failure channel *)

(** X14: an OpShardFail sends the application exactly one notification,
    the key of the shard with the error of the task, addressed to the
    failure channel under the context of the store, when a failure
    channel is configured, and none when it is not. *)
Theorem Fail_notifies_application d tsk s :
  t_op tsk = OpShardFail →
  d_shards d !! t_shard tsk = Some s →
  ∃ d' log,
    process d tsk = Continue d' log
    ∧ failure_notifications log
      = match d_failureCh d with
        | Some ch =>
            [(mk_ShardResult (s_key s) (t_err tsk),
              mk_waiter (d_ctx d) (Some ch))]
        | None => []
        end.
Proof.
  intros Hop Hs. rewrite (process_eq d tsk s Hs).
  rewrite (switch_OpShardFail d tsk Hop), case_OpShardFail_eq. cbv zeta.
  iteration_of f'.
  exists (iteration_store d tsk f'), (iteration_log d tsk f').
  split; [done|]. rewrite failure_notifications_iteration_log.
  subst f'. unfold entry. simpl.
  rewrite !failure_notifications_app.
  assert (∀ slot res, failure_notifications (notify slot res) = []) as Hn
    by (by intros [?|] ?).
  rewrite !Hn. simpl.
  destruct (s_wAcquire s), (d_failureCh d); done.
Qed.

(** *** The trace *)

Lemma traces_app log1 log2 : traces (log1 ++ log2) = traces log1 ++ traces log2.
Proof. apply omap_app. Qed.

Lemma calm_traces log : forallb calm log = true → traces log = [].
Proof.
  induction log as [|e log IH]; [done|]. simpl.
  intros [He Hl]%andb_prop. unfold traces in *. simpl.
  rewrite (IH Hl). by destruct e.
Qed.

(** X15: an iteration that runs to the end sends exactly one trace when a
    trace channel is configured and none otherwise; the trace carries the
    op of the task and the key, state and err of the record as the
    iteration leaves it, and it is the last effect before the Unlock. *)
Theorem trace_after_transition d tsk s d' log :
  t_op tsk ∈ defined_ops →
  d_shards d !! t_shard tsk = Some s →
  process d tsk = Continue d' log →
  ∃ s',
    d_shards d' !! t_shard tsk = Some s'
    ∧ traces log
      = match d_traceCh d with
        | Some _ => [trace_of (t_op tsk) s']
        | None => []
        end
    ∧ ∃ before,
        log = before
              ++ match d_traceCh d with
                 | Some _ => [Send_traceCh (trace_of (t_op tsk) s')]
                 | None => []
                 end
              ++ [Unlock (t_shard tsk)].
Proof.
  intros Hop Hs Hp. rewrite (process_eq d tsk s Hs) in Hp.
  pose proof (switch_op_quiet d tsk Hop (entry d tsk s)) as Hq.
  destruct (switch_op d tsk (entry d tsk s)) as [[] f|p]; [|done].
  injection Hp as <- <-. destruct Hq as (effs & Hlog & Hcalm).
  exists (f_s f). split; [apply lookup_insert_eq|]. split.
  - unfold iteration_log. rewrite Hlog, !traces_app, (calm_traces _ Hcalm).
    unfold persist_effects, trace_effects, trace_of.
    by repeat case_match.
  - exists (f_log f ++ persist_effects f). unfold iteration_log.
    rewrite <- app_assoc. do 2 f_equal.
Qed.

(** *** At most one reply *)

(** X16: processing the same OpShardMakeAvailable or OpShardFail a second
    time replies to no waiter and starts no acquire worker: the first one
    emptied wRegister, wRecover and wAcquire. *)
Theorem terminal_transition_twice d tsk s :
  t_op tsk = OpShardMakeAvailable ∨ t_op tsk = OpShardFail →
  d_shards d !! t_shard tsk = Some s →
  ∃ d1 log1 s1 d2 log2,
    process d tsk = Continue d1 log1
    ∧ d_shards d1 !! t_shard tsk = Some s1
    ∧ process d1 tsk = Continue d2 log2
    ∧ d_shards d2 !! t_shard tsk = Some s1
    ∧ dispatched log2 = []
    ∧ acquire_workers log2 = [].
Proof.
  intros [Hop|Hop] Hs; rewrite (process_eq d tsk s Hs).
  - rewrite (switch_OpShardMakeAvailable d tsk Hop),
      case_OpShardMakeAvailable_eq. cbv zeta.
    iteration_of f1.
    assert (d_shards (iteration_store d tsk f1) !! t_shard tsk = Some (f_s f1))
      as Hs1 by apply lookup_insert_eq.
    pose proof (process_eq (iteration_store d tsk f1) tsk (f_s f1) Hs1) as Hp2.
    rewrite (switch_OpShardMakeAvailable _ tsk Hop),
      case_OpShardMakeAvailable_eq in Hp2. cbv zeta in Hp2.
    match type of Hp2 with context [Ok () ?x] => set (f2 := x) in * end.
    cbv beta iota in Hp2.
    exists (iteration_store d tsk f1), (iteration_log d tsk f1), (f_s f1).
    eexists _, _. split; [done|]. split; [done|]. split; [exact Hp2|].
    split; [apply lookup_insert_eq|].
    by rewrite dispatched_iteration_log, acquire_workers_iteration_log.
  - rewrite (switch_OpShardFail d tsk Hop), case_OpShardFail_eq. cbv zeta.
    iteration_of f1.
    assert (d_shards (iteration_store d tsk f1) !! t_shard tsk = Some (f_s f1))
      as Hs1 by apply lookup_insert_eq.
    pose proof (process_eq (iteration_store d tsk f1) tsk (f_s f1) Hs1) as Hp2.
    rewrite (switch_OpShardFail _ tsk Hop), case_OpShardFail_eq in Hp2.
    cbv zeta in Hp2.
    match type of Hp2 with context [Ok () ?x] => set (f2 := x) in * end.
    cbv beta iota in Hp2.
    exists (iteration_store d tsk f1), (iteration_log d tsk f1), (f_s f1).
    eexists _, _. split; [done|]. split; [done|]. split; [exact Hp2|].
    split; [apply lookup_insert_eq|].
    rewrite dispatched_iteration_log, acquire_workers_iteration_log.
    subst f2 f1. simpl. by destruct (d_failureCh d).
Qed.

(** *** control *)

Lemma consumeNext_internal_live (p1 p2 : nat) (a : Arrival) d tsk q :
  d_internalCh d = tsk :: q →
  d_ctx_Err d = None →
  consumeNext p1 p2 a d = Got tsk (with_internalCh q d).
Proof.
  intros Hi He. unfold consumeNext.
  destruct (select_ p1 d [recv_internalCh; ctx_Done]) as [r|] eqn:Hsel.
  - apply select_Some in Hsel as (c & Hc & Ha).
    apply elem_of_cons in Hc as [->|Hc]; simpl in Ha.
    + rewrite Hi in Ha. congruence.
    + apply list_elem_of_singleton in Hc as ->. simpl in Ha.
      by rewrite He in Ha.
  - pose proof (select_None _ _ _ Hsel recv_internalCh) as Hn. simpl in Hn.
    rewrite Hi in Hn. discriminate Hn. set_solver.
Qed.

Lemma consumeNext_done (p1 p2 : nat) (a : Arrival) d (e : error) :
  d_ctx_Err d = Some e →
  consumeNext p1 p2 a d = Failed e
  ∨ ∃ tsk q, d_internalCh d = tsk :: q
             ∧ consumeNext p1 p2 a d = Got tsk (with_internalCh q d).
Proof.
  intros He. unfold consumeNext.
  destruct (select_ p1 d [recv_internalCh; ctx_Done]) as [r|] eqn:Hsel.
  - apply select_Some in Hsel as (c & Hc & Ha).
    apply elem_of_cons in Hc as [->|Hc]; simpl in Ha.
    + destruct (d_internalCh d) as [|tsk q]; [done|]. right.
      exists tsk, q. split; [done|]. congruence.
    + apply list_elem_of_singleton in Hc as ->. simpl in Ha.
      rewrite He in Ha. left. simpl in Ha. congruence.
  - pose proof (select_None _ _ _ Hsel ctx_Done) as Hn. simpl in Hn.
    rewrite He in Hn. discriminate Hn. set_solver.
Qed.

Lemma process_keeps_inbox d tsk d' log :
  process d tsk = Continue d' log →
  d_ctx_Err d' = d_ctx_Err d ∧ inbox d' = inbox d.
Proof.
  unfold process. destruct (d_shards d !! t_shard tsk) as [s|]; [|done].
  destruct (locked_section d tsk _) as [[] f|p]; [|done].
  by intros [= <- <-].
Qed.

(** X18: once the context of the store is done the loop consumes no task
    from the external or the completion channel any more, whatever the
    schedule: it can only finish tasks of the internal channel, and when
    it returns it is with the error of the context. *)
Theorem shutdown_leaves_inbox (sched : list Turn) d log (e : error) :
  d_ctx_Err d = Some e →
  match control sched d log with
  | Returned e' d' _ => e' = e ∧ inbox d' = inbox d
  | Running d' _ => inbox d' = inbox d
  | Crashed _ _ => True
  end.
Proof.
  revert d log. induction sched as [|turn rest IH]; intros d log He.
  - done.
  - simpl.
    destruct (consumeNext_done (pick1 turn) (pick2 turn) (arrival turn) d e He)
      as [->|(tsk & q & Hi & ->)]; [done|].
    destruct (process (with_internalCh q d) tsk) as [d'' l|p] eqn:Hp; [|done].
    apply process_keeps_inbox in Hp as [He'' Hin].
    specialize (IH d'' (log ++ l)). rewrite He'' in IH. specialize (IH He).
    rewrite Hin in IH. exact IH.
Qed.

(** X19: with the context done and nothing in the internal channel the
    loop returns at once with the error of the context: no task is
    processed, the tasks waiting in the external and completion channels
    stay there, and the shards and the metadata store are left as they
    are. *)
Theorem shutdown_returns_at_once (turn : Turn) (rest : list Turn) d log
    (e : error) :
  d_ctx_Err d = Some e →
  d_internalCh d = [] →
  control (turn :: rest) d log = Returned e d log.
Proof.
  intros He Hi. simpl.
  destruct (consumeNext_done (pick1 turn) (pick2 turn) (arrival turn) d e He)
    as [->|(tsk & q & Hi' & _)]; [done|congruence].
Qed.

Lemma control_internal_step (turn : Turn) (rest : list Turn) d log tsk q :
  d_internalCh d = tsk :: q →
  d_ctx_Err d = None →
  control (turn :: rest) d log
  = match process (with_internalCh q d) tsk with
    | Continue d'' l => control rest d'' (log ++ l)
    | Panics p => Crashed p log
    end.
Proof. intros Hi He. simpl. by rewrite (consumeNext_internal_live _ _ _ d tsk q). Qed.

Lemma internalCh_iteration_store d tsk f :
  d_internalCh (iteration_store d tsk f) = d_internalCh d ++ queued (f_log f).
Proof.
  change (d_internalCh (iteration_store d tsk f))
    with (d_internalCh d ++ queued (iteration_log d tsk f)).
  by rewrite queued_iteration_log.
Qed.

(** *** An eager registration, through the loop *)

Lemma queued_notify slot res : queued (notify slot res) = [].
Proof. by destruct slot. Qed.

Lemma queued_acquireAsync (l : loc) (m : Mount) (ws : list waiter) :
  queued ((λ w, Go_acquireAsync (w_ctx w) w l m) <$> ws) = [].
Proof. induction ws as [|w ws IH]; [done|]. exact IH. Qed.

Lemma initialize_workers_notify slot res :
  initialize_workers (notify slot res) = [].
Proof. by destruct slot. Qed.

Lemma initialize_workers_acquireAsync (l : loc) (m : Mount) (ws : list waiter) :
  initialize_workers ((λ w, Go_acquireAsync (w_ctx w) w l m) <$> ws) = [].
Proof. induction ws as [|w ws IH]; [done|]. exact IH. Qed.

(** X7: OpShardRegister on a New shard without lazy initialization parks
    the registrant and replies nothing yet.  When the index repository
    already holds the full index of the shard, the next two turns of the
    loop, whatever callers and workers send meanwhile, are the
    OpShardInitialize and the OpShardMakeAvailable the loop queued for
    itself: no initializer is started, the shard ends Available with
    wRegister nil, and the registrant (if any) has got its one success
    reply. *)
Theorem Register_eager_with_index d tsk s (istat : Stat) :
  t_op tsk = OpShardRegister →
  d_shards d !! t_shard tsk = Some s →
  s_state s = ShardStateNew →
  s_lazy s = false →
  StatFullIndex (d_indices d) (s_key s) = (istat, None) →
  st_Exists istat = true →
  d_internalCh d = [] →
  d_ctx_Err d = None →
  ∃ d1 log1,
    process d tsk = Continue d1 log1
    ∧ d_shards d1 !! t_shard tsk = Some (set_wRegister (t_waiter tsk) s)
    ∧ dispatched log1 = []
    ∧ ∀ t2 t3 : Turn, ∃ d3 log3 s3,
        control [t2; t3] d1 log1 = Running d3 log3
        ∧ d_shards d3 !! t_shard tsk = Some s3
        ∧ s_state s3 = ShardStateAvailable
        ∧ s_err s3 = None
        ∧ s_wRegister s3 = None
        ∧ d_internalCh d3 = []
        ∧ initialize_workers log3 = []
        ∧ dispatched log3
          = reply_to (t_waiter tsk) (mk_ShardResult (s_key s) None)
            ++ reply_to (s_wRecover s) (mk_ShardResult (s_key s) None).
Proof.
  intros Hop Hs Hst Hlazy Hstat Hex Hi He.
  set (l := t_shard tsk) in *.
  set (t_init := mk_task OpShardInitialize l (t_waiter tsk) None).
  set (t_avail := mk_task OpShardMakeAvailable l None None).
  (* the Register *)
  set (f1 := mk_Frame (set_wRegister (t_waiter tsk) s) true (d_store d)
               [Lock l; Call_queueTask t_init]).
  set (d1 := iteration_store d tsk f1).
  set (log1 := iteration_log d tsk f1).
  assert (process d tsk = Continue d1 log1) as Hp1.
  { rewrite (process_eq d tsk s Hs), (switch_OpShardRegister d tsk Hop).
    unfold case_OpShardRegister, entry. unfold_monad.
    rewrite decide_False by (by intros ?). by rewrite Hlazy. }
  assert (d_shards d1 !! l = Some (f_s f1)) as Hs1 by apply lookup_insert_eq.
  exists d1, log1. split; [exact Hp1|]. split; [exact Hs1|].
  assert (dispatched log1 = []) as Hd1
    by (unfold log1; by rewrite dispatched_iteration_log).
  assert (initialize_workers log1 = []) as Hw1
    by (unfold log1; by rewrite initialize_workers_iteration_log).
  split; [exact Hd1|]. intros t2 t3.
  (* the Initialize the loop queued *)
  assert (d_internalCh d1 = [t_init]) as Hi1.
  { unfold d1. rewrite internalCh_iteration_store, Hi. done. }
  set (f2 := mk_Frame (f_s f1) true (d_store (with_internalCh [] d1))
               [Lock l; Call_queueTask t_avail]).
  set (d2 := iteration_store (with_internalCh [] d1) t_init f2).
  set (log2 := iteration_log (with_internalCh [] d1) t_init f2).
  assert (process (with_internalCh [] d1) t_init = Continue d2 log2) as Hp2.
  { rewrite (process_eq (with_internalCh [] d1) t_init (f_s f1) Hs1).
    rewrite (switch_OpShardInitialize _ t_init eq_refl).
    unfold case_OpShardInitialize, entry. unfold_monad.
    rewrite Hstat, Hex. done. }
  rewrite (control_internal_step t2 [t3] d1 log1 t_init [] Hi1 He), Hp2.
  assert (d_shards d2 !! l = Some (f_s f2)) as Hs2 by apply lookup_insert_eq.
  assert (dispatched log2 = []) as Hd2
    by (unfold log2; by rewrite dispatched_iteration_log).
  assert (initialize_workers log2 = []) as Hw2
    by (unfold log2; by rewrite initialize_workers_iteration_log).
  (* the MakeAvailable the loop queued *)
  assert (d_internalCh d2 = [t_avail]) as Hi2.
  { unfold d2. rewrite internalCh_iteration_store. done. }
  rewrite (control_internal_step t3 [] d2 (log1 ++ log2) t_avail [] Hi2 He).
  rewrite (process_eq (with_internalCh [] d2) t_avail (f_s f2) Hs2).
  rewrite (switch_OpShardMakeAvailable _ t_avail eq_refl),
    case_OpShardMakeAvailable_eq.
  cbv zeta. iteration_of f3.
  set (d3 := iteration_store (with_internalCh [] d2) t_avail f3).
  set (log3 := iteration_log (with_internalCh [] d2) t_avail f3).
  exists d3, ((log1 ++ log2) ++ log3), (f_s f3).
  split; [done|]. split; [apply lookup_insert_eq|].
  do 3 (split; [done|]).
  split.
  { unfold d3. rewrite internalCh_iteration_store. subst f3.
    cbn [f_log]. rewrite !queued_app, !queued_notify, queued_acquireAsync.
    done. }
  rewrite !initialize_workers_app, !dispatched_app, Hd1, Hd2, Hw1, Hw2.
  unfold log3. rewrite initialize_workers_iteration_log, dispatched_iteration_log.
  subst f3. cbn [f_log]. split.
  - rewrite !initialize_workers_app, !initialize_workers_notify,
      initialize_workers_acquireAsync. done.
  - rewrite !dispatched_app, !dispatched_notify.
    rewrite (dispatched_acquireAsync (λ w, (w_ctx w, l, s_mount (f_s f2)))).
    simpl. by rewrite app_nil_r.
Qed.

End Rest.

(** * The rest of the loop, on the in-memory store *)

(** Both sides are evaluated. *)
Ltac by_evaluation H := vm_compute in H; vm_compute; exact H.

Lemma OpType_String_inj_witness :
  OpType_String 4 = Some "OpShardAcquire" ∧ OpShardAcquire = 4.
Proof.
  split; [reflexivity|].
  exact (OpType_String_inj OpShardAcquire 4 "OpShardAcquire" eq_refl eq_refl).
Defined.

Lemma default_branch_reached_witness :
  process (storeA (shardA ShardStateNew None) []) (mk_task 7 0%nat (Some w1) None)
  = Panics (unrecognized_shard_operation 7).
Proof.
  apply (default_branch_reached (storeA (shardA ShardStateNew None) [])
           (mk_task 7 0%nat (Some w1) None) (shardA ShardStateNew None)).
  - intros H. apply defined_ops_cases in H.
    repeat (destruct H as [H|H]; [discriminate H|]). discriminate H.
  - vm_compute; reflexivity.
Defined.

Lemma process_never_panics_witness :
  process (storeA lazyA []) (mk_task OpShardAcquire 0%nat (Some w1) None)
  ≠ Panics nil_pointer_dereference.
Proof.
  apply (process_never_panics (storeA lazyA [])
           (mk_task OpShardAcquire 0%nat (Some w1) None) lazyA w1).
  - apply defined_ops_cases. do 4 right. by left.
  - vm_compute; reflexivity.
  - reflexivity.
Defined.

Lemma Register_not_new_fails_shard_witness :
  ∃ d1 log1 d2 log2 s2,
    process (storeA (shardA ShardStateAvailable None) [])
            (mk_task OpShardRegister 0%nat (Some w1) None)
    = Continue d1 log1
    ∧ d_shards d1 !! 0%nat = Some (shardA ShardStateAvailable None)
    ∧ dispatched log1 = []
    ∧ d_internalCh d1 = [not_new_Fail 0%nat ShardStateAvailable]
    ∧ process d1 (not_new_Fail 0%nat ShardStateAvailable) = Continue d2 log2
    ∧ d_shards d2 !! 0%nat = Some s2
    ∧ s_state s2 = ShardStateErrored
    ∧ s_err s2 = Some (not_new_error ShardStateAvailable)
    ∧ errors_Is_ErrShardInitializationFailed (not_new_error ShardStateAvailable)
      = true.
Proof.
  apply (Register_not_new_fails_shard
           (storeA (shardA ShardStateAvailable None) [])
           (mk_task OpShardRegister 0%nat (Some w1) None)
           (shardA ShardStateAvailable None)).
  - reflexivity.
  - vm_compute; reflexivity.
  - discriminate.
Defined.

Lemma Register_lazy_witness :
  ∃ d' log,
    process (storeA lazyA []) (mk_task OpShardRegister 0%nat (Some w1) None)
    = Continue d' log
    ∧ d_shards d' !! 0%nat = Some lazyA
    ∧ dispatched log = [(Some w1, mk_ShardResult "A" None)]
    ∧ queued log = []
    ∧ initialize_workers log = []
    ∧ persisted log = [lazyA].
Proof.
  apply (Register_lazy (storeA lazyA [])
           (mk_task OpShardRegister 0%nat (Some w1) None) lazyA);
    solve [reflexivity | vm_compute; reflexivity].
Defined.

Lemma Register_eager_with_index_witness :
  ∃ d1 log1,
    process (store_of indexedA (shardA ShardStateNew None) [])
            (mk_task OpShardRegister 0%nat (Some w1) None)
    = Continue d1 log1
    ∧ d_shards d1 !! 0%nat
      = Some (set_wRegister (Some w1) (shardA ShardStateNew None))
    ∧ dispatched log1 = []
    ∧ ∀ t2 t3 : Turn, ∃ d3 log3 s3,
        control [t2; t3] d1 log1 = Running d3 log3
        ∧ d_shards d3 !! 0%nat = Some s3
        ∧ s_state s3 = ShardStateAvailable
        ∧ s_err s3 = None
        ∧ s_wRegister s3 = None
        ∧ d_internalCh d3 = []
        ∧ initialize_workers log3 = []
        ∧ dispatched log3 = [(Some w1, mk_ShardResult "A" None)].
Proof.
  apply (Register_eager_with_index
           (store_of indexedA (shardA ShardStateNew None) [])
           (mk_task OpShardRegister 0%nat (Some w1) None)
           (shardA ShardStateNew None) (mk_Stat true));
    solve [reflexivity | vm_compute; reflexivity].
Defined.

Lemma Acquire_available_witness :
  ∃ d' log,
    process (storeA (shardA ShardStateAvailable None) [])
            (mk_task OpShardAcquire 0%nat (Some w1) None)
    = Continue d' log
    ∧ d_shards d' !! 0%nat = Some (shardA ShardStateAvailable None)
    ∧ acquire_workers log = [(ctx_of 1, w1, 0%nat, 7%nat)]
    ∧ dispatched log = []
    ∧ queued log = []
    ∧ persisted log = [shardA ShardStateAvailable None].
Proof.
  pose proof (Acquire_available (storeA (shardA ShardStateAvailable None) [])
                (mk_task OpShardAcquire 0%nat (Some w1) None)
                (shardA ShardStateAvailable None) w1
                eq_refl
                ltac:(vm_compute; reflexivity)
                eq_refl
                ltac:(vm_compute; reflexivity)
                ltac:(vm_compute; reflexivity)) as H.
  by_evaluation H.
Defined.

Lemma Acquire_waits_witness :
  ∃ d' log,
    process (storeA lazyA []) (mk_task OpShardAcquire 0%nat (Some w1) None)
    = Continue d' log
    ∧ d_shards d' !! 0%nat = Some (set_wAcquire [w1] lazyA)
    ∧ dispatched log = []
    ∧ acquire_workers log = []
    ∧ queued log
      = [mk_task OpShardInitialize 0%nat
           (Some (mk_waiter context_Background (Some 1%nat))) None].
Proof.
  pose proof (Acquire_waits (storeA lazyA [])
                (mk_task OpShardAcquire 0%nat (Some w1) None) lazyA w1
                eq_refl
                ltac:(vm_compute; reflexivity)
                eq_refl
                ltac:(vm_compute; reflexivity)
                ltac:(vm_compute; intros H; discriminate H)
                ltac:(vm_compute; intros H; discriminate H)) as H.
  by_evaluation H.
Defined.

Lemma Acquire_errored_replies_witness :
  ∃ d' log,
    process (storeA (shardA ShardStateErrored (Some E0)) [])
            (mk_task OpShardAcquire 0%nat (Some w1) None)
    = Continue d' log
    ∧ d_shards d' !! 0%nat = Some (shardA ShardStateErrored (Some E0))
    ∧ dispatched log
      = [(Some w1,
          mk_ShardResult "A"
            (Some (fmt_wrapError "shard is in errored state; err: %w" [] E0)))]
    ∧ queued log = []
    ∧ acquire_workers log = []
    ∧ initialize_workers log = [].
Proof.
  pose proof (Acquire_errored_replies
                (storeA (shardA ShardStateErrored (Some E0)) [])
                (mk_task OpShardAcquire 0%nat (Some w1) None)
                (shardA ShardStateErrored (Some E0)) w1
                eq_refl
                ltac:(vm_compute; reflexivity)
                eq_refl
                ltac:(vm_compute; reflexivity)
                ltac:(vm_compute; reflexivity)
                ltac:(vm_compute; reflexivity)) as H.
  by_evaluation H.
Defined.

(** Nothing was persisted for "A": the reload reports not-found. *)
Lemma reload_failure_replies_witness :
  reload_error (unpersistedA (shardA ShardStateErrored (Some E0)))
    (shardA ShardStateErrored (Some E0))
  = Some ds_ErrNotFound
  ∧ ∃ d' log,
      process (unpersistedA (shardA ShardStateErrored (Some E0)))
              (mk_task OpShardRecover 0%nat (Some w1) None)
      = Continue d' log
      ∧ d_shards d' !! 0%nat = Some (shardA ShardStateErrored (Some E0))
      ∧ dispatched log
        = [(Some w1,
            mk_ShardResult "A"
              (Some (fmt_wrapError "could not recover shard: %w" []
                       ds_ErrNotFound)))]
      ∧ queued log = []
      ∧ acquire_workers log = []
      ∧ initialize_workers log = []
      ∧ persisted log = []
      ∧ d_store d' = ∅.
Proof.
  split; [vm_compute; reflexivity|].
  pose proof (reload_failure_replies
                (unpersistedA (shardA ShardStateErrored (Some E0)))
                (mk_task OpShardRecover 0%nat (Some w1) None)
                (shardA ShardStateErrored (Some E0)) ds_ErrNotFound
                (or_intror eq_refl)
                ltac:(vm_compute; reflexivity)
                ltac:(vm_compute; reflexivity)) as H.
  by_evaluation H.
Defined.

Lemma Recover_refused_witness :
  ∃ d' log,
    process (storeA (shardA ShardStateAvailable None) [])
            (mk_task OpShardRecover 0%nat (Some w1) None)
    = Continue d' log
    ∧ d_shards d' !! 0%nat = Some (shardA ShardStateAvailable None)
    ∧ dispatched log
      = [(Some w1,
          mk_ShardResult "A"
            (Some (fmt_errorString
                     "refused to recover shard in state other than errored; current state: %d"
                     [ArgState ShardStateAvailable])))]
    ∧ initialize_workers log = []
    ∧ queued log = []
    ∧ persisted log = [shardA ShardStateAvailable None].
Proof.
  pose proof (Recover_refused (storeA (shardA ShardStateAvailable None) [])
                (mk_task OpShardRecover 0%nat (Some w1) None)
                (shardA ShardStateAvailable None)
                eq_refl
                ltac:(vm_compute; reflexivity)
                ltac:(vm_compute; reflexivity)
                ltac:(vm_compute; intros H; discriminate H)) as H.
  by_evaluation H.
Defined.

(** w2 is parked in wRecover when the OpShardRecover of w3 arrives. *)
Lemma Recover_parks_over_witness :
  s_wRecover (busyA ShardStateErrored (Some E0)) = Some w2
  ∧ ∃ d' log s',
      process (storeA (busyA ShardStateErrored (Some E0)) [])
              (mk_task OpShardRecover 0%nat (Some w3) None)
      = Continue d' log
      ∧ d_shards d' !! 0%nat = Some s'
      ∧ s_wRecover s' = Some w3
      ∧ s_state s' = ShardStateErrored
      ∧ dispatched log = []
      ∧ initialize_workers log = [(ctx_of 3, 0%nat, 7%nat)].
Proof.
  split; [reflexivity|].
  pose proof (Recover_parks_over
                (storeA (busyA ShardStateErrored (Some E0)) [])
                (mk_task OpShardRecover 0%nat (Some w3) None)
                (busyA ShardStateErrored (Some E0)) w3
                eq_refl
                ltac:(vm_compute; reflexivity)
                eq_refl
                ltac:(vm_compute; reflexivity)
                ltac:(vm_compute; reflexivity)) as H.
  by_evaluation H.
Defined.

Lemma Fail_notifies_application_witness :
  ∃ d' log,
    process (storeA (busyA ShardStateNew None) [])
            (mk_task OpShardFail 0%nat None (Some E0))
    = Continue d' log
    ∧ failure_notifications log
      = [(mk_ShardResult "A" (Some E0), mk_waiter (ctx_of 0) (Some 8%nat))].
Proof.
  apply (Fail_notifies_application (storeA (busyA ShardStateNew None) [])
           (mk_task OpShardFail 0%nat None (Some E0))
           (busyA ShardStateNew None));
    solve [reflexivity | vm_compute; reflexivity].
Defined.

Lemma trace_after_transition_witness :
  ∃ d' log s',
    process (storeA (busyA ShardStateNew None) [])
            (mk_task OpShardFail 0%nat None (Some E0))
    = Continue d' log
    ∧ d_shards d' !! 0%nat = Some s'
    ∧ traces log
      = [mk_Trace "A" OpShardFail (mk_ShardInfo ShardStateErrored (Some E0))].
Proof.
  destruct (process (storeA (busyA ShardStateNew None) [])
              (mk_task OpShardFail 0%nat None (Some E0)))
    as [d' log|p] eqn:Hp; [|vm_compute in Hp; discriminate Hp].
  assert (OpShardFail ∈ defined_ops) as Hop
    by (apply defined_ops_cases; do 5 right; by left).
  destruct (trace_after_transition (storeA (busyA ShardStateNew None) [])
              (mk_task OpShardFail 0%nat None (Some E0))
              (busyA ShardStateNew None) d' log Hop
              ltac:(vm_compute; reflexivity) Hp)
    as (s' & Hs' & Htr & _).
  exists d', log, s'. split; [reflexivity|]. split; [exact Hs'|].
  vm_compute in Hp. injection Hp as <- <-.
  vm_compute in Hs'. injection Hs' as <-. exact Htr.
Defined.

Lemma terminal_transition_twice_witness :
  ∃ d1 log1 s1 d2 log2,
    process (storeA (busyA ShardStateNew None) [])
            (mk_task OpShardMakeAvailable 0%nat None None)
    = Continue d1 log1
    ∧ d_shards d1 !! 0%nat = Some s1
    ∧ process d1 (mk_task OpShardMakeAvailable 0%nat None None)
      = Continue d2 log2
    ∧ d_shards d2 !! 0%nat = Some s1
    ∧ dispatched log2 = []
    ∧ acquire_workers log2 = [].
Proof.
  apply (terminal_transition_twice (storeA (busyA ShardStateNew None) [])
           (mk_task OpShardMakeAvailable 0%nat None None)
           (busyA ShardStateNew None)).
  - by left.
  - vm_compute; reflexivity.
Defined.

(** The metadata store fails the deletion with E0. *)
Lemma Destroy_dispatched_witness :
  ∃ d' log,
    @process _ _ (failing_Delete E0)
      (storeA (shardA ShardStateAvailable None) [])
      (mk_task OpShardDestroy 0%nat (Some w1) None)
    = Continue d' log
    ∧ d_shards d' !! 0%nat = Some (shardA ShardStateAvailable None)
    ∧ persisted log = []
    ∧ dispatched log
      = [(Some w1,
          mk_ShardResult "A"
            (Some (fmt_wrapError "failed to delete shard %s: %w"
                     [ArgKey "A"] E0)))].
Proof.
  apply (@Destroy_dispatched _ _ (failing_Delete E0)
           (storeA (shardA ShardStateAvailable None) [])
           (mk_task OpShardDestroy 0%nat (Some w1) None)
           (shardA ShardStateAvailable None));
    solve [reflexivity | vm_compute; reflexivity].
Defined.

Lemma shutdown_leaves_inbox_witness :
  match control [mk_Turn 0 0 no_arrival; mk_Turn 1 0 no_arrival]
          (closedA context_Canceled) [] with
  | Returned e' d' _ =>
      e' = context_Canceled ∧ inbox d' = inbox (closedA context_Canceled)
  | Running d' _ => inbox d' = inbox (closedA context_Canceled)
  | Crashed _ _ => True
  end.
Proof.
  exact (shutdown_leaves_inbox [mk_Turn 0 0 no_arrival; mk_Turn 1 0 no_arrival]
           (closedA context_Canceled) [] context_Canceled eq_refl).
Defined.

Lemma shutdown_returns_at_once_witness :
  control [turn0; turn0] (with_internalCh [] (closedA context_Canceled)) []
  = Returned context_Canceled (with_internalCh [] (closedA context_Canceled)) [].
Proof.
  exact (shutdown_returns_at_once turn0 [turn0]
           (with_internalCh [] (closedA context_Canceled)) []
           context_Canceled eq_refl eq_refl).
Defined.
